(** * viridian_workflow.primers: amplicon schemes, read classification, tags

    A shallow embedding of [viridian_workflow/primers.py] and the
    properties of its amplicon bookkeeping ([Amplicon.add],
    [Amplicon.position_in_primer]), of the scheme index
    ([AmpliconSet.__init__], [AmpliconSet.match]) and of the tag
    propagation ([set_tags], [get_tags]).

    Conventions of the embedding:
    - Python [int] is [Z]; the result of [len] is [nat];
    - [str] is [string] (one [ascii] per character, [ord] is the character
      code);
    - an attribute holding [None] is an [option]; an attribute that
      [__init__] may leave unassigned is an [option] as well and reading it
      when absent raises [AttributeError];
    - a raised exception is the [Raise] case of [result];
    - a [dict] that is only looked up is a [gmap]; a [dict] that is iterated
      keeps its insertion order and is a [pydict] (association list);
    - a [set] that is only tested for membership is a [gset]; the interval
      tree, a set of intervals, is a duplicate-free list. *)

From stdpp Require Import base decidable option numbers list gmap strings.
From Stdlib Require Import ZArith String Ascii Lia.

Set Warnings "-clear-no-such-hyp".

Local Open Scope string_scope.
Local Open Scope list_scope.
Local Open Scope Z_scope.

(** ** Exceptions *)

Inductive exn :=
  | TypeError | ValueError | KeyError | IndexError | AttributeError
  | Exception (msg : string).

Inductive result (A : Type) :=
  | Ok (a : A)
  | Raise (e : exn).
Arguments Ok {A} a.
Arguments Raise {A} e.

(** Sequencing: an exception in [m] skips the rest. *)
Definition bind {A B} (m : result A) (k : A → result B) : result B :=
  match m with
  | Ok a => k a
  | Raise e => Raise e
  end.

Notation "'let*' x ':=' m 'in' k" := (bind m (λ x, k))
  (at level 10, x pattern, m at level 100, k at level 200).

(** A [for] loop whose body may raise: the first exception ends the loop. *)
Fixpoint foldM {A B} (body : A → B → result A) (xs : list B) (acc : A)
  : result A :=
  match xs with
  | [] => Ok acc
  | x :: xs' => let* acc' := body acc x in foldM body xs' acc'
  end.

(** Arithmetic on a value that may be [None]. *)
Definition as_int (v : option Z) : result Z :=
  match v with
  | Some z => Ok z
  | None => Raise TypeError
  end.

(** ** Insertion-ordered dictionaries *)

Section pydict.
Context {K V : Type} `{EqDecision K}.

Definition pydict := list (K * V).

(** [d[k] = v]: an existing key keeps its position, a new key goes last. *)
Fixpoint pydict_set (k : K) (v : V) (d : pydict) : pydict :=
  match d with
  | [] => [(k, v)]
  | (k', v') :: d' =>
      if decide (k' = k) then (k, v) :: d' else (k', v') :: pydict_set k v d'
  end.

(** [d.values()], in insertion order *)
Definition pydict_values (d : pydict) : list V := d.*2.
End pydict.
Arguments pydict : clear implicits.

(** ** Primer *)

Module Primer.
Record t := mk {
  name : string;
  seq : string;
  left : bool;
  forward : bool;
  pos : Z
}.

Global Instance primer_eq_dec : EqDecision t.
Proof. solve_decision. Defined.

Definition len (p : t) : nat := String.length (seq p).
Definition primer_end (p : t) : Z := pos p + Z.of_nat (len p).
End Primer.

(** ** in_range *)

Definition in_range (range_tuple : option (Z * Z)) (position : Z)
  : result bool :=
  match range_tuple with
  | None => Raise TypeError
  | Some (start, end_) =>
      Ok (bool_decide (position < end_) && bool_decide (position > start))
  end.

(** ** Amplicon *)

Module Amplicon.
Record t := mk {
  shortname : Z;
  name : string;
  start : option Z;
  end_ : option Z;
  left : list Primer.t;
  right : list Primer.t;
  left_primer_region : option (Z * Z);
  right_primer_region : option (Z * Z);
  max_length : nat
}.

Global Instance amplicon_eq_dec : EqDecision t.
Proof. solve_decision. Defined.

(** [Amplicon(name, shortname)] *)
Definition new (name : string) (shortname : Z) : t :=
  mk shortname name None None [] [] None None 0.

Definition set_max_length (n : nat) (a : t) : t :=
  mk (shortname a) (name a) (start a) (end_ a) (left a) (right a)
     (left_primer_region a) (right_primer_region a) n.
Definition set_left (l : list Primer.t) (a : t) : t :=
  mk (shortname a) (name a) (start a) (end_ a) l (right a)
     (left_primer_region a) (right_primer_region a) (max_length a).
Definition set_right (l : list Primer.t) (a : t) : t :=
  mk (shortname a) (name a) (start a) (end_ a) (left a) l
     (left_primer_region a) (right_primer_region a) (max_length a).
Definition set_left_primer_region (r : option (Z * Z)) (a : t) : t :=
  mk (shortname a) (name a) (start a) (end_ a) (left a) (right a)
     r (right_primer_region a) (max_length a).
Definition set_right_primer_region (r : option (Z * Z)) (a : t) : t :=
  mk (shortname a) (name a) (start a) (end_ a) (left a) (right a)
     (left_primer_region a) r (max_length a).
Definition set_start (s : option Z) (a : t) : t :=
  mk (shortname a) (name a) s (end_ a) (left a) (right a)
     (left_primer_region a) (right_primer_region a) (max_length a).
Definition set_end (e : option Z) (a : t) : t :=
  mk (shortname a) (name a) (start a) e (left a) (right a)
     (left_primer_region a) (right_primer_region a) (max_length a).

(** [x or y] evaluates [y] only when [x] is false. *)
Definition position_in_primer (self : t) (position : Z) : result bool :=
  let* in_left := in_range (left_primer_region self) position in
  if in_left : bool then Ok true
  else in_range (right_primer_region self) position.

(** A region is [None] or a pair, and a pair is always truthy, so
    [not self.left_primer_region] holds exactly for [None].
    [min(self.start, primer.pos)] raises [TypeError] on [None]. *)
Definition add (primer : Primer.t) (self : t) : result t :=
  let primer_end := Primer.pos primer + Z.of_nat (String.length (Primer.seq primer)) in
  let self :=
    if bool_decide (max_length self < String.length (Primer.seq primer))%nat
    then set_max_length (String.length (Primer.seq primer)) self
    else self in
  if Primer.left primer then
    let self := set_left (left self ++ [primer]) self in
    match left_primer_region self with
    | None =>
        let self :=
          set_left_primer_region (Some (Primer.pos primer, primer_end)) self in
        Ok (set_start (Some (Primer.pos primer)) self)
    | Some (left_start, left_end) =>
        let self :=
          set_left_primer_region
            (Some (Z.min (Primer.pos primer) left_start,
                   Z.max primer_end left_end)) self in
        let* start0 := as_int (start self) in
        Ok (set_start (Some (Z.min start0 (Primer.pos primer))) self)
    end
  else
    let self := set_right (right self ++ [primer]) self in
    match right_primer_region self with
    | None =>
        let self :=
          set_right_primer_region (Some (Primer.pos primer, primer_end)) self in
        Ok (set_end (Some primer_end) self)
    | Some (right_start, right_end) =>
        let self :=
          set_right_primer_region
            (Some (Z.min (Primer.pos primer) right_start,
                   Z.max primer_end right_end)) self in
        let* end0 := as_int (end_ self) in
        Ok (set_end (Some (Z.max end0 primer_end)) self)
    end.

(** Adding primers one by one, as [from_tsv] does for the rows of one
    amplicon. *)
Definition add_all (primers : list Primer.t) (self : t) : result t :=
  foldM (λ a p, add p a) primers self.
End Amplicon.

(** ** The interval index *)

(** Modelled from the spec: the [intervaltree] package ([IntervalTree],
    [Interval]) is a dependency that is not part of the sources.  The tree is
    a set of intervals [(begin, end, data)], each the half-open span
    [[begin, end)]; [tree[p]] is "all intervals containing point p" and
    [envelop(b, e)] is the intervals "entirely contained within [b, e)".
    Two behaviours of the package are kept because construction and [match]
    can reach them: a null interval ([begin >= end]) is refused with
    [ValueError] when it is inserted, and [envelop] of an empty range is
    empty. *)
Module IntervalTree.
Record Interval := mkInterval {
  begin : Z;
  end_ : Z;
  data : Amplicon.t
}.

Global Instance Interval_eq_dec : EqDecision Interval.
Proof. solve_decision. Defined.

Definition t := list Interval.

Definition is_null (iv : Interval) : bool := bool_decide (begin iv >= end_ iv).

(** [tree[b:e] = d] *)
Definition setitem (b e : Z) (d : Amplicon.t) (tree : t) : result t :=
  let iv := mkInterval b e d in
  if bool_decide (iv ∈ tree) then Ok tree
  else if is_null iv then Raise ValueError
  else Ok (tree ++ [iv]).

(** [tree[p]] *)
Definition at_ (p : Z) (tree : t) : list Interval :=
  filter (λ iv, begin iv ≤ p ∧ p < end_ iv) tree.

Definition envelop (b e : Z) (tree : t) : list Interval :=
  if bool_decide (b >= e) then []
  else filter (λ iv, b ≤ begin iv ∧ end_ iv ≤ e) tree.
End IntervalTree.

(** ** AmpliconSet *)

Definition ord (c : ascii) : Z := Z.of_nat (nat_of_ascii c).
Definition chr (code : Z) : string := String (ascii_of_nat (Z.to_nat code)) "".

Fixpoint sum_ord (s : string) : Z :=
  match s with
  | EmptyString => 0
  | String c s' => ord c + sum_ord s'
  end.

(** [s[:n]] for [n >= 0] *)
Definition str_prefix (n : nat) (s : string) : string := String.substring 0 n s.

(** [min] of a set of lengths; [ValueError] on the empty set. *)
Definition py_min (s : gset nat) : result nat :=
  match elements s with
  | [] => Raise ValueError
  | x :: xs => Ok (foldl Nat.min x xs)
  end.

Module AmpliconSet.
Record t := mk {
  shortname : option string; (* [None]: the attribute was never assigned *)
  tree : IntervalTree.t;
  name : string;
  seqs : gmap string Amplicon.t;
  amplicons : pydict string Amplicon.t;
  amplicon_ids : gmap Z Amplicon.t;
  min_primer_length : nat
}.

(** [not shortname] for [shortname] a string or [None] *)
Definition not_ (shortname : option string) : bool :=
  match shortname with
  | None => true
  | Some s => bool_decide (s = "")
  end.

(** The "base-54 hash" of the name. *)
Definition derived_shortname (name : string) : string :=
  chr (((sum_ord name - ord "A") `mod` 54) + 65).

(** The locals of the loop over [amplicons]. *)
Record building := mk_building {
  b_amplicon_ids : gmap Z Amplicon.t;
  b_sequences : pydict string Amplicon.t;
  b_primer_lengths : gset nat;
  b_tree : IntervalTree.t
}.

Definition empty_building : building := mk_building ∅ [] ∅ [].

(** One of the two inner loops, over [amplicon.left] or [amplicon.right]. *)
Definition note_primers (amplicon : Amplicon.t) (primers : list Primer.t)
    (acc : pydict string Amplicon.t * gset nat)
  : pydict string Amplicon.t * gset nat :=
  foldl (λ '(sequences, primer_lengths) primer,
           (pydict_set (Primer.seq primer) amplicon sequences,
            {[ String.length (Primer.seq primer) ]} ∪ primer_lengths))
        acc primers.

(** The body of [for amplicon_name in amplicons]; a dictionary is iterated
    in insertion order and [amplicons[amplicon_name]] is the value stored
    with the key. *)
Definition index_amplicon (tolerance : Z) (st : building)
    (item : string * Amplicon.t) : result building :=
  let amplicon := item.2 in
  let amplicon_ids :=
    <[Amplicon.shortname amplicon := amplicon]> (b_amplicon_ids st) in
  let acc := note_primers amplicon (Amplicon.left amplicon)
               (b_sequences st, b_primer_lengths st) in
  let acc := note_primers amplicon (Amplicon.right amplicon) acc in
  let* start := as_int (Amplicon.start amplicon) in
  let* end_ := as_int (Amplicon.end_ amplicon) in
  let* tree := IntervalTree.setitem (start - tolerance) (end_ + tolerance)
           amplicon (b_tree st) in
  Ok (mk_building amplicon_ids acc.1 acc.2 tree).

(** [AmpliconSet(name, amplicons, tolerance, shortname)]; the defaults of
    the source are [tolerance=5] and [shortname=None]. *)
Definition init (name : string) (amplicons : pydict string Amplicon.t)
    (tolerance : Z) (shortname : option string) : result t :=
  let self_shortname :=
    if not_ shortname then Some (derived_shortname name) else None in
  let* st := foldM (index_amplicon tolerance) amplicons empty_building in
  let* min_primer_length := py_min (b_primer_lengths st) in
  let seqs :=
    foldl (λ seqs '(k, v), <[str_prefix min_primer_length k := v]> seqs)
          ∅ (b_sequences st) in
  Ok (mk self_shortname (b_tree st) name seqs amplicons
         (b_amplicon_ids st) min_primer_length).

(** [self.shortname] *)
Definition get_shortname (self : t) : result string :=
  match shortname self with
  | Some s => Ok s
  | None => Raise AttributeError
  end.

(** [match] returns [None], raises, or returns the list of the hits'
    amplicons. *)
Definition match_ (self : t) (start end_ : Z)
  : result (option (list Amplicon.t)) :=
  let hits :=
    list_intersection (IntervalTree.at_ start (tree self))
                      (IntervalTree.at_ end_ (tree self)) in
  let enveloped := IntervalTree.envelop start end_ (tree self) in
  if bool_decide (enveloped ≠ []) then Ok None
  else if bool_decide (List.length hits = 0%nat) then Ok None
  else if bool_decide (2 < List.length hits)%nat then Raise (Exception "")
  else Ok (Some (IntervalTree.data <$> hits)).
End AmpliconSet.

(** ** Reads and their tags *)

Inductive tag_value :=
  | TInt (z : Z)
  | TStr (s : string).

Global Instance tag_value_eq_dec : EqDecision tag_value.
Proof. solve_decision. Defined.

(** A stored tag: [(key, value, type)]. *)
Definition tag := (string * tag_value * string)%type.

(** What [read.get_tags()] yields for one tag: a 2-tuple or a 3-tuple. *)
Inductive tag_tuple :=
  | Tuple2 (key : string) (value : tag_value)
  | Tuple3 (key : string) (value : tag_value) (value_type : string).

(** Modelled from the spec: the read record is an external collaborator
    that is not part of the sources; it exposes [set_tags] taking a sequence
    of [(key, value, type)] and [get_tags] returning an ordered sequence of
    tuples. *)
Class ReadAPI (R : Type) := {
  read_set_tags : list tag → R → R;
  read_get_tags : R → list tag_tuple
}.

(** [tag, amplicon_id = item] *)
Definition unpack2 (item : tag_tuple) : result (string * tag_value) :=
  match item with
  | Tuple2 k v => Ok (k, v)
  | Tuple3 _ _ _ => Raise ValueError
  end.

(** [s[i]] *)
Definition str_index (s : string) (i : nat) : result string :=
  match String.get i s with
  | Some c => Ok (String c "")
  | None => Raise IndexError
  end.

(** [amplicon_set.amplicon_ids[amplicon_id]]; the keys are integers. *)
Definition ids_getitem (ids : gmap Z Amplicon.t) (amplicon_id : tag_value)
  : result Amplicon.t :=
  match amplicon_id with
  | TInt z =>
      match ids !! z with
      | Some a => Ok a
      | None => Raise KeyError
      end
  | TStr _ => Raise KeyError
  end.

Section tags.
Context {R : Type} `{ReadAPI R}.

(** The exception of the duplicate-shortname test is built and dropped:
    the statement has no [raise]. *)
Definition set_tags (amplicon_sets : list AmpliconSet.t) (read : R)
    (matches : gmap string (list Amplicon.t)) : result R :=
  let* acc := foldM (λ (acc : list tag * gset string) amplicon_set,
      let '(tags, shortnames) := acc in
      let* shortname := AmpliconSet.get_shortname amplicon_set in
      let dropped : option exn :=
        if bool_decide (shortname ∈ shortnames)
        then Some (Exception ("Multiple amplicon sets of the same shortname: " +:+ shortname))
        else None in
      let shortnames : gset string := {[ shortname ]} ∪ shortnames in
      match matches !! AmpliconSet.name amplicon_set with
      | None => Ok (tags, shortnames)
      | Some ms =>
          Ok (foldl (λ (tags : list tag) amplicon,
                       tags ++ [("Z" +:+ shortname,
                                 TInt (Amplicon.shortname amplicon), "i")])
                    tags ms,
              shortnames)
      end) amplicon_sets ([], ∅) in
  Ok (read_set_tags acc.1 read).

Definition get_tags (amplicon_set : AmpliconSet.t) (read : R)
  : result (list Amplicon.t) :=
  foldM (λ matches item,
      let* (tag, amplicon_id) := unpack2 item in
      let* c0 := str_index tag 0 in
      let* selected :=
        (if bool_decide (c0 = "Z") then
           let* c1 := str_index tag 1 in
           let* shortname := AmpliconSet.get_shortname amplicon_set in
           Ok (bool_decide (c1 = shortname))
         else Ok false) in
      if selected : bool then
        let* amplicon := ids_getitem (AmpliconSet.amplicon_ids amplicon_set) amplicon_id in
        Ok (matches ++ [amplicon])
      else Ok matches)
    (read_get_tags read) [].
End tags.

(** Two reads.  [triple_read] follows the contract of the specification to
    the letter: [get_tags] yields the stored [(key, value, type)] triples and
    [set_tags] keeps the tags stored under other keys.  [pair_read] stores
    the batch it is given and yields [(key, value)] pairs, the shape that the
    two-name unpacking in [get_tags] consumes. *)
Record triple_read := TripleRead { triple_tags : list tag }.
Record pair_read := PairRead { pair_tags : list tag }.

Definition tag_key (t : tag) : string := t.1.1.
Definition as_triple (t : tag) : tag_tuple := Tuple3 t.1.1 t.1.2 t.2.
Definition as_pair (t : tag) : tag_tuple := Tuple2 t.1.1 t.1.2.

Global Instance triple_read_api : ReadAPI triple_read := {
  read_set_tags ts r :=
    TripleRead
      (filter (λ t, tag_key t ∉ tag_key <$> ts) (triple_tags r) ++ ts);
  read_get_tags r := as_triple <$> triple_tags r
}.

Global Instance pair_read_api : ReadAPI pair_read := {
  read_set_tags ts r := PairRead ts;
  read_get_tags r := as_pair <$> pair_tags r
}.

(** ** Scheme files: from_tsv and load_amplicon_schemes *)

(** What [csv.DictReader] presents of an opened file: the header
    ([fieldnames], [None] for an empty file) and one dictionary per line.
    A row is modelled for a line that has a value for each column. *)
Record tsv_file := mk_tsv {
  fieldnames : option (list string);
  rows : list (gmap string string)
}.

(** The built-ins that parsing relies on: [int] of a string, [None] where it
    raises [ValueError], and the text of a list of strings in an f-string. *)
Record builtins := mk_builtins {
  py_int : string → option Z;
  py_repr : list string → string
}.

(** [required_cols], in sorted order. *)
Definition required_cols : list string :=
  ["Amplicon_name"; "Left_or_right"; "Position"; "Primer_name"; "Sequence"].

(** [sorted(list(required_cols.difference(set(fieldnames))))] *)
Definition missing_cols (cols : list string) : list string :=
  filter (λ c, c ∉ cols) required_cols.

(** [str.lower] on characters with codes below 256. *)
Definition lower_char (c : ascii) : ascii :=
  let n := nat_of_ascii c in
  if bool_decide ((65 ≤ n ≤ 90) ∨ (192 ≤ n ≤ 214) ∨ (216 ≤ n ≤ 222))%nat
  then ascii_of_nat (n + 32) else c.

Fixpoint lower (s : string) : string :=
  match s with
  | EmptyString => EmptyString
  | String c s' => String (lower_char c) (lower s')
  end.

(** [d[k]] on a row *)
Definition row_getitem (d : gmap string string) (k : string) : result string :=
  match d !! k with
  | Some v => Ok v
  | None => Raise KeyError
  end.

Section pydict_lookup.
Context {K V : Type} `{EqDecision K}.

Fixpoint pydict_get (k : K) (d : pydict K V) : option V :=
  match d with
  | [] => None
  | (k', v') :: d' => if decide (k' = k) then Some v' else pydict_get k d'
  end.

(** [d[k]] *)
Definition pydict_getitem (k : K) (d : pydict K V) : result V :=
  match pydict_get k d with
  | Some v => Ok v
  | None => Raise KeyError
  end.

(** [dict(pairs)] *)
Definition pydict_of_pairs (pairs : list (K * V)) : pydict K V :=
  foldl (λ d kv, pydict_set kv.1 kv.2 d) [] pairs.
End pydict_lookup.

(** The primer of a row, in the order in which the loop body reads the
    columns. *)
Definition row_primer (B : builtins) (d : gmap string string)
  : result Primer.t :=
  let* left_or_right := row_getitem d "Left_or_right" in
  let left := bool_decide (lower left_or_right = "left") in
  let forward := left in
  let* position := row_getitem d "Position" in
  let* pos :=
    match py_int B position with
    | Some z => Ok z
    | None => Raise ValueError
    end in
  let* primer_name := row_getitem d "Primer_name" in
  let* sequence := row_getitem d "Sequence" in
  Ok (Primer.mk primer_name sequence left forward pos).

(** The body of [for d in reader], on the locals [amplicons] and [n]. *)
Definition from_tsv_row (B : builtins) (st : pydict string Amplicon.t * Z)
    (d : gmap string string) : result (pydict string Amplicon.t * Z) :=
  let* amplicon_name := row_getitem d "Amplicon_name" in
  let st :=
    if bool_decide (amplicon_name ∉ st.1.*1)
    then (pydict_set amplicon_name (Amplicon.new amplicon_name st.2) st.1,
          st.2 + 1)
    else st in
  let* primer := row_primer B d in
  let* amplicon := pydict_getitem amplicon_name st.1 in
  let* amplicon := Amplicon.add primer amplicon in
  Ok (pydict_set amplicon_name amplicon st.1, st.2).

(** [AmpliconSet.from_tsv(fn, name, tolerance=..., shortname=...)] on the
    opened file; an absent keyword is [None]. *)
Definition from_tsv (B : builtins) (fn : string) (file : tsv_file)
    (name : option string) (tolerance : option Z) (shortname : option string)
  : result AmpliconSet.t :=
  let* cols :=
    match fieldnames file with
    | Some cols => Ok cols
    | None => Raise TypeError
    end in
  let missing := missing_cols cols in
  if bool_decide (0 < List.length missing)%nat then
    Raise (Exception
             ("Amplicon scheme TSV missing these columns: "
              +:+ String.concat "," missing
              +:+ ". Got these columns: " +:+ py_repr B cols))
  else
    let* st := foldM (from_tsv_row B) (rows file) ([], 0) in
    let name :=
      match name with
      | Some s => if AmpliconSet.not_ name then fn else s
      | None => fn
      end in
    AmpliconSet.init name st.1 (default 5 tolerance) shortname.

(** A list comprehension whose element expression may raise. *)
Fixpoint mapM {A B} (f : A → result B) (l : list A) : result (list B) :=
  match l with
  | [] => Ok []
  | x :: l' => let* y := f x in let* ys := mapM f l' in Ok (y :: ys)
  end.

(** [load_amplicon_schemes(amplicon_tsvs)], each file name given with the
    opened file. *)
Definition load_amplicon_schemes (B : builtins)
    (amplicon_tsvs : list (string * tsv_file))
  : result (pydict string AmpliconSet.t) :=
  let* pairs :=
    mapM (λ ts : string * tsv_file * string,
            let* amplicon_set :=
              from_tsv B ts.1.1 ts.1.2 None None (Some ts.2) in
            Ok (ts.2, amplicon_set))
         (zip amplicon_tsvs ["a"; "b"; "c"]) in
  Ok (pydict_of_pairs pairs).

(** The amplicon name and the primer of a row. *)
Definition row_entry (B : builtins) (d : gmap string string)
  : result (string * Primer.t) :=
  let* amplicon_name := row_getitem d "Amplicon_name" in
  let* primer := row_primer B d in
  Ok (amplicon_name, primer).

(** The distinct names of a list, in the order of their first
    occurrence. *)
Definition first_seen (l : list string) : list string :=
  foldl (λ acc x, if decide (x ∈ acc) then acc else acc ++ [x]) [] l.

(** The primers that the rows give to the amplicon [k], in row order. *)
Definition primers_for (k : string) (entries : list (string * Primer.t))
  : list Primer.t :=
  (filter (λ e, e.1 = k) entries).*2.

(** The locals [amplicons] and [n] after the rows with the entries [es]:
    the amplicons are keyed by their names in first-seen order, numbered
    from 0, and each one is what [add] makes of its rows. *)
Definition grouped (es : list (string * Primer.t))
    (amplicons : pydict string Amplicon.t) (n : Z) : Prop :=
  amplicons.*1 = first_seen es.*1 ∧
  n = Z.of_nat (List.length amplicons) ∧
  ∀ (i : nat) k a, amplicons !! i = Some (k, a) →
    Amplicon.add_all (primers_for k es) (Amplicon.new k (Z.of_nat i)) = Ok a.

(** ** Vocabulary of the properties *)

(** The padded span [[start - tolerance, end + tolerance)] of an amplicon
    that has both a start and an end. *)
Definition padded_span (tolerance : Z) (a : Amplicon.t) : option (Z * Z) :=
  match Amplicon.start a, Amplicon.end_ a with
  | Some s, Some e => Some (s - tolerance, e + tolerance)
  | _, _ => None
  end.

(** The padded span contains the point [p]. *)
Definition span_contains (tolerance : Z) (a : Amplicon.t) (p : Z) : Prop :=
  match padded_span tolerance a with
  | Some (b, e) => b ≤ p ∧ p < e
  | None => False
  end.

(** The padded span lies within [[s, e)]. *)
Definition span_within (tolerance : Z) (a : Amplicon.t) (s e : Z) : Prop :=
  match padded_span tolerance a with
  | Some (b, e') => s ≤ b ∧ e' ≤ e
  | None => False
  end.

(** The padded span is a proper interval. *)
Definition span_proper (tolerance : Z) (a : Amplicon.t) : Prop :=
  match padded_span tolerance a with
  | Some (b, e) => b < e
  | None => False
  end.

Global Instance span_contains_dec tol a p : Decision (span_contains tol a p).
Proof. unfold span_contains. destruct (padded_span tol a) as [[b e]|]; apply _. Defined.
Global Instance span_within_dec tol a s e : Decision (span_within tol a s e).
Proof. unfold span_within. destruct (padded_span tol a) as [[b e']|]; apply _. Defined.
Global Instance span_proper_dec tol a : Decision (span_proper tol a).
Proof. unfold span_proper. destruct (padded_span tol a) as [[b e]|]; apply _. Defined.

(** The amplicons of a scheme whose padded span contains both endpoints of a
    read, as a set (equal amplicons count once). *)
Definition containing (tolerance : Z) (amplicons : pydict string Amplicon.t)
    (s e : Z) : list Amplicon.t :=
  remove_dups
    (filter (λ a, span_contains tolerance a s ∧ span_contains tolerance a e)
            (pydict_values amplicons)).

(** The amplicons of a scheme whose padded span the read envelops. *)
Definition enveloped (tolerance : Z) (amplicons : pydict string Amplicon.t)
    (s e : Z) : list Amplicon.t :=
  filter (λ a, span_within tolerance a s e) (pydict_values amplicons).

Definition primers_of (a : Amplicon.t) : list Primer.t :=
  Amplicon.left a ++ Amplicon.right a.

(** Every primer of a scheme, amplicon by amplicon, left primers first. *)
Definition all_primers (amplicons : pydict string Amplicon.t) : list Primer.t :=
  pydict_values amplicons ≫= primers_of.

(** Every primer sequence of a scheme with the amplicon that owns it. *)
Definition owners (amplicons : pydict string Amplicon.t)
  : list (string * Amplicon.t) :=
  pydict_values amplicons ≫= λ a, (λ p, (Primer.seq p, a)) <$> primers_of a.

(** The footprint hull of the primers of one side, folded as [add] does. *)
Definition hull (region : option (Z * Z)) (p : Primer.t) : option (Z * Z) :=
  match region with
  | None => Some (Primer.pos p, Primer.primer_end p)
  | Some (s, e) => Some (Z.min (Primer.pos p) s, Z.max (Primer.primer_end p) e)
  end.

Definition side_region (left_side : bool) (ps : list Primer.t)
    (region : option (Z * Z)) : option (Z * Z) :=
  foldl hull region (filter (λ p, Primer.left p = left_side) ps).

(** Start and end agree with the regions, as they do in every amplicon
    reached from [Amplicon.new] by [add]. *)
Definition coherent (a : Amplicon.t) : Prop :=
  Amplicon.start a = fst <$> Amplicon.left_primer_region a ∧
  Amplicon.end_ a = snd <$> Amplicon.right_primer_region a.

(** The interval that construction inserts for an amplicon. *)
Definition interval_of (tolerance : Z) (a : Amplicon.t)
  : option IntervalTree.Interval :=
  match padded_span tolerance a with
  | Some (b, e) => Some (IntervalTree.mkInterval b e a)
  | None => None
  end.

(** The tree holds, once each, the proper intervals of the amplicons [l]. *)
Definition indexes (tolerance : Z) (l : list Amplicon.t)
    (tree : IntervalTree.t) : Prop :=
  NoDup tree ∧
  Forall (span_proper tolerance) l ∧
  ∀ iv, iv ∈ tree ↔ ∃ a, a ∈ l ∧ interval_of tolerance a = Some iv.

Definition has_primer (a : Amplicon.t) : Prop := primers_of a ≠ [].

(** The tags that [set_tags] collects for one set of shortname [c]: one per
    amplicon listed under the name of the set, none when the name is not a
    key of [matches]. *)
Definition tags_of_set (matches : gmap string (list Amplicon.t))
    (S : AmpliconSet.t) (c : string) : list tag :=
  match matches !! AmpliconSet.name S with
  | Some ms => (λ a, ("Z" +:+ c, TInt (Amplicon.shortname a), "i")) <$> ms
  | None => []
  end.

(** The batch that [set_tags] writes for a list of sets. *)
Definition written (matches : gmap string (list Amplicon.t))
    (sets : list AmpliconSet.t) : list tag :=
  sets ≫= λ S,
    match AmpliconSet.shortname S with
    | Some c => tags_of_set matches S c
    | None => []
    end.

(** ** A small scheme *)

Definition from_ok {A} (default : A) (r : result A) : A :=
  match r with
  | Ok a => a
  | Raise _ => default
  end.

Definition build_amplicon (name : string) (shortname : Z)
    (primers : list Primer.t) : Amplicon.t :=
  from_ok (Amplicon.new name shortname)
          (Amplicon.add_all primers (Amplicon.new name shortname)).

Definition ex_A : Amplicon.t :=
  build_amplicon "A" 0
    [Primer.mk "A_LEFT" "ACGTACGTAC" true true 100;
     Primer.mk "A_RIGHT" "TTGACCATGG" false false 190].

Definition ex_B : Amplicon.t :=
  build_amplicon "B" 1
    [Primer.mk "B_LEFT" "GGCATTACGATT" true true 195;
     Primer.mk "B_RIGHT" "CATGCCTAAG" false false 290].

Definition ex_C : Amplicon.t :=
  build_amplicon "C" 2
    [Primer.mk "C_LEFT" "AATTCCGGAT" true true 150;
     Primer.mk "C_RIGHT" "CCGGTTAACA" false false 240].

Definition ex_D : Amplicon.t :=
  build_amplicon "D" 3
    [Primer.mk "D_LEFT" "ACGTA" true true 160;
     Primer.mk "D_RIGHT" "TTGCA" false false 165].

Definition ex_E : Amplicon.t :=
  build_amplicon "E" 4
    [Primer.mk "E_LEFT" "GATTACAGAT" true true 120;
     Primer.mk "E_RIGHT" "CTTAGGATCC" false false 220].

(** An amplicon that keeps the default shortname [0], as [ex_A] does. *)
Definition ex_G : Amplicon.t :=
  build_amplicon "G" 0
    [Primer.mk "G_LEFT" "CAGTTGACCA" true true 195;
     Primer.mk "G_RIGHT" "TGGATCCAAT" false false 290].

Definition ex_scheme : pydict string Amplicon.t := [("A", ex_A); ("B", ex_B)].

Definition ex_overlapping : pydict string Amplicon.t :=
  [("A", ex_A); ("B", ex_B); ("C", ex_C)].

Definition ex_enveloping : pydict string Amplicon.t :=
  [("A", ex_A); ("C", ex_C); ("E", ex_E); ("D", ex_D)].

Definition empty_set : AmpliconSet.t := AmpliconSet.mk None [] "" ∅ [] ∅ 0.

Definition build_set (name : string) (amplicons : pydict string Amplicon.t)
    (shortname : option string) : AmpliconSet.t :=
  from_ok empty_set (AmpliconSet.init name amplicons 5 shortname).

Definition ex_set : AmpliconSet.t := build_set "scheme" ex_scheme None.

Definition ex_clash : pydict string Amplicon.t := [("A", ex_A); ("G", ex_G)].

Definition ex_clash_set : AmpliconSet.t := build_set "scheme" ex_clash None.

(** A scheme file with the primers of [ex_A] and [ex_B], and built-ins
    that read a run of decimal digits. *)
Definition digit_value (c : ascii) : option Z :=
  let n := nat_of_ascii c in
  if bool_decide (48 ≤ n ≤ 57)%nat then Some (Z.of_nat n - 48) else None.

Fixpoint digits_value (acc : Z) (s : string) : option Z :=
  match s with
  | EmptyString => Some acc
  | String c s' =>
      match digit_value c with
      | Some d => digits_value (10 * acc + d) s'
      | None => None
      end
  end.

Definition ex_builtins : builtins :=
  mk_builtins
    (λ s, if bool_decide (s = "") then None else digits_value 0 s)
    (λ cols, "[" +:+ String.concat ", " cols +:+ "]").

Definition ex_row (amplicon primer side sequence position : string)
  : gmap string string :=
  {[ "Amplicon_name" := amplicon; "Primer_name" := primer;
     "Left_or_right" := side; "Sequence" := sequence;
     "Position" := position ]}.

Definition ex_tsv : tsv_file :=
  mk_tsv
    (Some ["Amplicon_name"; "Primer_name"; "Left_or_right"; "Sequence";
           "Position"])
    [ex_row "A" "A_LEFT" "left" "ACGTACGTAC" "100";
     ex_row "B" "B_LEFT" "Left" "GGCATTACGATT" "195";
     ex_row "A" "A_RIGHT" "right" "TTGACCATGG" "190";
     ex_row "B" "B_RIGHT" "RIGHT" "CATGCCTAAG" "290"].

(** The same file without the columns [Position] and [Sequence]. *)
Definition ex_tsv_short : tsv_file :=
  mk_tsv (Some ["Amplicon_name"; "Primer_name"; "Left_or_right"]) [].

Definition ex_files : list (string * tsv_file) :=
  [("first.tsv", ex_tsv); ("second.tsv", ex_tsv)].

Definition ex_loaded : pydict string AmpliconSet.t :=
  from_ok [] (load_amplicon_schemes ex_builtins ex_files).

(** An amplicon that has received a left primer only. *)
Definition ex_left_only : Amplicon.t :=
  build_amplicon "L" 0 [Primer.mk "L_LEFT" "ACGTACGTAC" true true 0].

(** * Properties *)

(** ** The result monad and loops *)

Lemma bind_Ok {A B} (m : result A) (k : A → result B) (b : B) :
  bind m k = Ok b → ∃ a, m = Ok a ∧ k a = Ok b.
Proof. destruct m as [a|e]; simpl; [eauto | discriminate]. Qed.

Lemma foldl_eq {A B} (f g : A → B → A) (l : list B) (a : A) :
  (∀ a x, f a x = g a x) → foldl f a l = foldl g a l.
Proof.
  intros Hfg. revert a. induction l as [|x l IH]; intros a; simpl; [done|].
  by rewrite Hfg, IH.
Qed.

(** ** Amplicon.add *)

Lemma hull_comm (r : option (Z * Z)) (p q : Primer.t) :
  hull (hull r p) q = hull (hull r q) p.
Proof. destruct r as [[s e]|]; simpl; f_equal; f_equal; lia. Qed.

Lemma foldl_hull_perm (ps qs : list Primer.t) :
  ps ≡ₚ qs → ∀ r, foldl hull r ps = foldl hull r qs.
Proof.
  induction 1 as [|p ps qs _ IH|p q ps|ps qs rs _ IH1 _ IH2]; intros r; simpl.
  - done.
  - apply IH.
  - by rewrite hull_comm.
  - by rewrite IH1.
Qed.

Lemma side_region_perm (side : bool) (ps qs : list Primer.t) r :
  ps ≡ₚ qs → side_region side ps r = side_region side qs r.
Proof.
  intros Hperm. unfold side_region.
  apply foldl_hull_perm. by rewrite Hperm.
Qed.

Lemma side_region_cons (side : bool) (p : Primer.t) ps r :
  side_region side (p :: ps) r =
  side_region side ps (if decide (Primer.left p = side) then hull r p else r).
Proof.
  unfold side_region. rewrite filter_cons.
  by destruct (decide (Primer.left p = side)).
Qed.

(** One [add] on a coherent amplicon succeeds and extends the hull of the
    primer's side. *)
Lemma add_coherent (p : Primer.t) (a : Amplicon.t) :
  coherent a →
  ∃ a', Amplicon.add p a = Ok a' ∧ coherent a' ∧
    Amplicon.left_primer_region a' =
      (if Primer.left p then hull (Amplicon.left_primer_region a) p
       else Amplicon.left_primer_region a) ∧
    Amplicon.right_primer_region a' =
      (if Primer.left p then Amplicon.right_primer_region a
       else hull (Amplicon.right_primer_region a) p).
Proof.
  destruct a as [sn nm st en l r lr rr ml].
  destruct p as [pn ps pl pf pp].
  unfold coherent, Amplicon.add, Primer.primer_end, Primer.len; simpl.
  intros [-> ->].
  destruct pl, lr as [[ls le]|], rr as [[rs re]|];
    case_bool_decide; simpl; eexists; (split; [reflexivity|]); simpl;
    repeat split; try done; apply (f_equal Some); lia.
Qed.

Lemma add_all_regions (ps : list Primer.t) (a : Amplicon.t) :
  coherent a →
  ∃ a', Amplicon.add_all ps a = Ok a' ∧ coherent a' ∧
    Amplicon.left_primer_region a' =
      side_region true ps (Amplicon.left_primer_region a) ∧
    Amplicon.right_primer_region a' =
      side_region false ps (Amplicon.right_primer_region a).
Proof.
  revert a. induction ps as [|p ps IH]; intros a Ha.
  - exists a. split; [done|]. split; [done|]. by split.
  - destruct (add_coherent p a Ha) as (a1 & Hadd & Hco & Hl & Hr).
    destruct (IH a1 Hco) as (a' & Hall & Hco' & Hl' & Hr').
    exists a'. unfold Amplicon.add_all in *. simpl. rewrite Hadd. simpl.
    split; [done|]. split; [done|].
    rewrite !side_region_cons, Hl', Hr', Hl, Hr.
    by destruct (Primer.left p).
Qed.

Lemma new_coherent (name : string) (shortname : Z) :
  coherent (Amplicon.new name shortname).
Proof. by split. Qed.

(** C8: adding the same primers to a fresh amplicon in two different orders
    succeeds both times and yields the same [start], [end],
    [left_primer_region] and [right_primer_region]. *)
Theorem add_order_independent (name : string) (shortname : Z)
    (ps qs : list Primer.t) :
  ps ≡ₚ qs →
  ∃ a b,
    Amplicon.add_all ps (Amplicon.new name shortname) = Ok a ∧
    Amplicon.add_all qs (Amplicon.new name shortname) = Ok b ∧
    Amplicon.start a = Amplicon.start b ∧
    Amplicon.end_ a = Amplicon.end_ b ∧
    Amplicon.left_primer_region a = Amplicon.left_primer_region b ∧
    Amplicon.right_primer_region a = Amplicon.right_primer_region b.
Proof.
  intros Hperm.
  destruct (add_all_regions ps _ (new_coherent name shortname))
    as (a & Ha & [Hsa Hea] & Hla & Hra).
  destruct (add_all_regions qs _ (new_coherent name shortname))
    as (b & Hb & [Hsb Heb] & Hlb & Hrb).
  exists a, b. split; [done|]. split; [done|].
  assert (Amplicon.left_primer_region a = Amplicon.left_primer_region b) as Hl.
  { rewrite Hla, Hlb. by apply side_region_perm. }
  assert (Amplicon.right_primer_region a = Amplicon.right_primer_region b) as Hr.
  { rewrite Hra, Hrb. by apply side_region_perm. }
  by rewrite Hsa, Hsb, Hea, Heb, Hl, Hr.
Qed.

Lemma add_order_independent_witness :
  ∃ a b,
    Amplicon.add_all
      [Primer.mk "L1" "ACGT" true true 10; Primer.mk "R1" "TTGCA" false false 90;
       Primer.mk "L2" "GGATCC" true true 7]
      (Amplicon.new "A" 0) = Ok a ∧
    Amplicon.add_all
      [Primer.mk "L2" "GGATCC" true true 7; Primer.mk "L1" "ACGT" true true 10;
       Primer.mk "R1" "TTGCA" false false 90]
      (Amplicon.new "A" 0) = Ok b ∧
    Amplicon.start a = Amplicon.start b ∧
    Amplicon.end_ a = Amplicon.end_ b ∧
    Amplicon.left_primer_region a = Amplicon.left_primer_region b ∧
    Amplicon.right_primer_region a = Amplicon.right_primer_region b.
Proof.
  apply add_order_independent.
  symmetry. etrans; [apply Permutation_swap|]. apply Permutation_skip, Permutation_swap.
Defined.

(** ** Amplicon.position_in_primer *)

(** C10, amended: with no left region the call fails; with a left region and
    no right region it returns [True] for a position strictly inside the left
    region and fails for every other position; with both regions it returns
    whether the position is strictly inside one of them. *)
Theorem position_in_primer_cases (a : Amplicon.t) (position : Z) :
  match Amplicon.left_primer_region a, Amplicon.right_primer_region a with
  | None, _ => Amplicon.position_in_primer a position = Raise TypeError
  | Some (ls, le), None =>
      Amplicon.position_in_primer a position =
      if bool_decide (ls < position ∧ position < le) then Ok true
      else Raise TypeError
  | Some (ls, le), Some (rs, re) =>
      ∃ b, Amplicon.position_in_primer a position = Ok b ∧
           (b = true ↔
            (ls < position ∧ position < le) ∨ (rs < position ∧ position < re))
  end.
Proof.
  unfold Amplicon.position_in_primer, in_range.
  destruct (Amplicon.left_primer_region a) as [[ls le]|]; [|done].
  destruct (Amplicon.right_primer_region a) as [[rs re]|]; simpl.
  - destruct (bool_decide (position < le) && bool_decide (position > ls)) eqn:Hl.
    + exists true. split; [done|]. split; [|done]. intros _. left.
      apply andb_true_iff in Hl as [?%bool_decide_eq_true ?%bool_decide_eq_true]. lia.
    + eexists. split; [done|].
      rewrite andb_true_iff, !bool_decide_eq_true.
      apply andb_false_iff in Hl as [?%bool_decide_eq_false|?%bool_decide_eq_false]; lia.
  - repeat case_bool_decide; simpl; try done; lia.
Qed.

(** C10 as stated fails: the right region of [ex_left_only] is unset and the
    call returns [True] at position 5. *)
Lemma position_in_primer_left_only :
  Amplicon.right_primer_region ex_left_only = None ∧
  Amplicon.position_in_primer ex_left_only 5 = Ok true.
Proof. split; reflexivity. Qed.

(** ** Building the index *)

Lemma interval_of_Some tol a iv :
  interval_of tol a = Some iv →
  IntervalTree.data iv = a ∧
  padded_span tol a = Some (IntervalTree.begin iv, IntervalTree.end_ iv).
Proof.
  unfold interval_of. destruct (padded_span tol a) as [[b e]|]; [|done].
  by intros [= <-].
Qed.

Lemma setitem_indexes tol l a s e tree tree' :
  Amplicon.start a = Some s → Amplicon.end_ a = Some e →
  indexes tol l tree →
  IntervalTree.setitem (s - tol) (e + tol) a tree = Ok tree' →
  indexes tol (l ++ [a]) tree'.
Proof.
  intros Hs He (Hnd & Hproper & Hiff) Hset.
  assert (interval_of tol a = Some (IntervalTree.mkInterval (s - tol) (e + tol) a))
    as Hiv by (unfold interval_of, padded_span; by rewrite Hs, He).
  unfold IntervalTree.setitem in Hset.
  case_bool_decide as Hin.
  - injection Hset as <-.
    apply Hiff in Hin as (a0 & Ha0 & Hiv0).
    assert (a0 = a) as -> by (by apply interval_of_Some in Hiv0 as [? _]).
    split; [done|]. split.
    + apply Forall_app. split; [done|]. apply Forall_singleton.
      by eapply Forall_forall in Hproper.
    + intros iv. rewrite Hiff. setoid_rewrite elem_of_app.
      setoid_rewrite list_elem_of_singleton. naive_solver.
  - unfold IntervalTree.is_null in Hset. simpl in Hset.
    case_bool_decide as Hnull; [done|]. injection Hset as <-.
    split; [|split].
    + apply NoDup_app. split; [done|]. split; [|apply NoDup_singleton].
      intros iv ? ->%list_elem_of_singleton. done.
    + apply Forall_app. split; [done|]. apply Forall_singleton.
      unfold span_proper, padded_span. rewrite Hs, He. lia.
    + intros iv. rewrite elem_of_app, Hiff, list_elem_of_singleton.
      setoid_rewrite elem_of_app. setoid_rewrite list_elem_of_singleton.
      split.
      * intros [(a0 & ? & ?)| ->]; eauto.
      * intros (a0 & [?| ->] & Ha0); [eauto|]. right. congruence.
Qed.

Lemma note_primers_spec (a : Amplicon.t) (ps : list Primer.t) sequences lengths :
  AmpliconSet.note_primers a ps (sequences, lengths) =
  (foldl (λ d kv, pydict_set kv.1 kv.2 d) sequences
         ((λ p, (Primer.seq p, a)) <$> ps),
   list_to_set (Primer.len <$> ps) ∪ lengths).
Proof.
  unfold AmpliconSet.note_primers.
  revert sequences lengths. induction ps as [|p ps IH]; intros sq pl; simpl.
  - f_equal. set_solver.
  - rewrite IH. f_equal. unfold Primer.len. set_solver.
Qed.

(** What one pass of the loop body leaves in the locals. *)
Lemma index_amplicon_Ok tol st k a st' :
  AmpliconSet.index_amplicon tol st (k, a) = Ok st' →
  ∃ s e,
    Amplicon.start a = Some s ∧ Amplicon.end_ a = Some e ∧
    IntervalTree.setitem (s - tol) (e + tol) a (AmpliconSet.b_tree st)
      = Ok (AmpliconSet.b_tree st') ∧
    AmpliconSet.b_amplicon_ids st' =
      <[Amplicon.shortname a := a]> (AmpliconSet.b_amplicon_ids st) ∧
    AmpliconSet.b_sequences st' =
      foldl (λ d kv, pydict_set kv.1 kv.2 d) (AmpliconSet.b_sequences st)
            ((λ p, (Primer.seq p, a)) <$> primers_of a) ∧
    AmpliconSet.b_primer_lengths st' =
      list_to_set (Primer.len <$> primers_of a) ∪ AmpliconSet.b_primer_lengths st.
Proof.
  unfold AmpliconSet.index_amplicon. simpl.
  rewrite !note_primers_spec. simpl.
  destruct (Amplicon.start a) as [s|]; [|done].
  destruct (Amplicon.end_ a) as [e|]; [|done]. simpl.
  intros (tree & Htree & [= <-])%bind_Ok.
  exists s, e. simpl. repeat split; try done.
  - unfold primers_of. by rewrite fmap_app, foldl_app.
  - unfold primers_of. rewrite fmap_app, list_to_set_app_L. set_solver.
Qed.

Lemma build_loop tol amps st st' l0 :
  foldM (AmpliconSet.index_amplicon tol) amps st = Ok st' →
  indexes tol l0 (AmpliconSet.b_tree st) →
  indexes tol (l0 ++ pydict_values amps) (AmpliconSet.b_tree st') ∧
  AmpliconSet.b_amplicon_ids st' =
    foldl (λ m a, <[Amplicon.shortname a := a]> m)
          (AmpliconSet.b_amplicon_ids st) (pydict_values amps) ∧
  AmpliconSet.b_sequences st' =
    foldl (λ d kv, pydict_set kv.1 kv.2 d) (AmpliconSet.b_sequences st)
          (owners amps) ∧
  AmpliconSet.b_primer_lengths st' =
    list_to_set (Primer.len <$> all_primers amps) ∪ AmpliconSet.b_primer_lengths st.
Proof.
  revert st l0. induction amps as [|[k a] amps IH]; intros st l0; simpl.
  - intros [= <-] Hidx. rewrite app_nil_r. split; [done|].
    repeat split. unfold all_primers. simpl. set_solver.
  - intros (st1 & Hstep & Hrest)%bind_Ok Hidx.
    apply index_amplicon_Ok in Hstep as (s & e & Hs & He & Hset & Hids & Hseq & Hlen).
    pose proof (setitem_indexes _ _ _ _ _ _ _ Hs He Hidx Hset) as Hidx1.
    destruct (IH _ _ Hrest Hidx1) as (Hidx' & Hids' & Hseq' & Hlen').
    split; [by rewrite <-app_assoc in Hidx'|].
    split; [by rewrite Hids', Hids|].
    split.
    + unfold owners, pydict_values. simpl. by rewrite foldl_app, Hseq', Hseq.
    + unfold all_primers, pydict_values. simpl.
      rewrite Hlen', Hlen, fmap_app, list_to_set_app_L. set_solver.
Qed.

Lemma indexes_nil tol : indexes tol [] [].
Proof.
  split; [apply NoDup_nil_2|]. split; [done|].
  intros iv. split; [by intros ?%elem_of_nil|].
  by intros (a & ?%elem_of_nil & _).
Qed.

(** The loop succeeds on amplicons that all have a proper padded span. *)
Lemma build_loop_total tol amps st :
  Forall (span_proper tol) (pydict_values amps) →
  ∃ st', foldM (AmpliconSet.index_amplicon tol) amps st = Ok st'.
Proof.
  revert st. induction amps as [|[k a] amps IH]; intros st Hall.
  - by eexists.
  - unfold pydict_values in Hall. rewrite fmap_cons in Hall.
    apply Forall_cons in Hall as [Ha Hall].
    unfold span_proper, padded_span in Ha. cbn [snd] in Ha.
    cbn [foldM]. unfold AmpliconSet.index_amplicon at 1. cbn [snd].
    destruct (Amplicon.start a) as [s|]; [|done].
    destruct (Amplicon.end_ a) as [e|]; [|done]. cbn [as_int bind].
    unfold IntervalTree.setitem, IntervalTree.is_null.
    cbn [IntervalTree.begin IntervalTree.end_].
    case_bool_decide; cbn [bind]; [by apply IH|].
    rewrite bool_decide_eq_false_2 by lia. cbn [bind]. by apply IH.
Qed.

Lemma foldl_min_spec (x : nat) (xs : list nat) :
  foldl Nat.min x xs ∈ x :: xs ∧ ∀ n, n ∈ x :: xs → (foldl Nat.min x xs ≤ n)%nat.
Proof.
  revert x. induction xs as [|y xs IH]; intros x; simpl.
  - split; [apply list_elem_of_here|]. by intros n ->%list_elem_of_singleton.
  - destruct (IH (x `min` y)%nat) as [Hin Hle]. split.
    + apply elem_of_cons in Hin as [Heq|Hin].
      * rewrite Heq. destruct (Nat.min_spec x y) as [[_ ->]|[_ ->]];
          set_solver.
      * set_solver.
    + intros n Hn.
      assert (n = x ∨ n ∈ y :: xs) as [->|Hn'] by set_solver.
      * pose proof (Hle (x `min` y)%nat (list_elem_of_here _ _)). lia.
      * apply elem_of_cons in Hn' as [->|Hn'].
        -- pose proof (Hle (x `min` y)%nat (list_elem_of_here _ _)). lia.
        -- apply Hle. by apply list_elem_of_further.
Qed.

Lemma py_min_Ok (s : gset nat) (m : nat) :
  py_min s = Ok m → m ∈ s ∧ ∀ n, n ∈ s → (m ≤ n)%nat.
Proof.
  unfold py_min. destruct (elements s) as [|x xs] eqn:Hel; [done|].
  intros [= <-]. destruct (foldl_min_spec x xs) as [Hin Hle].
  rewrite <-Hel in Hin, Hle. setoid_rewrite elem_of_elements in Hle.
  by apply elem_of_elements in Hin.
Qed.

Lemma py_min_total (s : gset nat) (n : nat) : n ∈ s → ∃ m, py_min s = Ok m.
Proof.
  unfold py_min. intros Hn%elem_of_elements.
  destruct (elements s); [by apply elem_of_nil in Hn|by eexists].
Qed.

(** What a successful construction stores. *)
Lemma init_Ok name amps tol sn S :
  AmpliconSet.init name amps tol sn = Ok S →
  AmpliconSet.name S = name ∧
  AmpliconSet.shortname S =
    (if AmpliconSet.not_ sn then Some (AmpliconSet.derived_shortname name)
     else None) ∧
  indexes tol (pydict_values amps) (AmpliconSet.tree S) ∧
  AmpliconSet.amplicon_ids S =
    foldl (λ m a, <[Amplicon.shortname a := a]> m) ∅ (pydict_values amps) ∧
  AmpliconSet.seqs S =
    foldl (λ seqs kv, <[str_prefix (AmpliconSet.min_primer_length S) kv.1 := kv.2]> seqs)
          ∅ (foldl (λ d kv, pydict_set kv.1 kv.2 d) [] (owners amps)) ∧
  py_min (list_to_set (Primer.len <$> all_primers amps))
    = Ok (AmpliconSet.min_primer_length S).
Proof.
  unfold AmpliconSet.init.
  intros (st & Hloop & (m & Hmin & [= <-])%bind_Ok)%bind_Ok. simpl.
  destruct (build_loop _ _ _ _ [] Hloop (indexes_nil tol))
    as (Hidx & Hids & Hseq & Hlen).
  simpl in *. rewrite Hlen, union_empty_r_L in Hmin.
  do 4 (split; [done|]). split; [|done].
  rewrite Hseq. apply foldl_eq. by intros seqs [k v].
Qed.

(** ** AmpliconSet.match *)

Lemma interval_contains tol a iv p :
  interval_of tol a = Some iv →
  IntervalTree.begin iv ≤ p ∧ p < IntervalTree.end_ iv ↔ span_contains tol a p.
Proof.
  intros [_ Hspan]%interval_of_Some. unfold span_contains. by rewrite Hspan.
Qed.

Lemma interval_within tol a iv s e :
  interval_of tol a = Some iv →
  s ≤ IntervalTree.begin iv ∧ IntervalTree.end_ iv ≤ e ↔ span_within tol a s e.
Proof.
  intros [_ Hspan]%interval_of_Some. unfold span_within. by rewrite Hspan.
Qed.

Lemma span_has_interval tol a :
  is_Some (padded_span tol a) → ∃ iv, interval_of tol a = Some iv.
Proof.
  unfold interval_of. intros [[b e] ->]. by eexists.
Qed.

Lemma list_nil_iff {A} (l : list A) : l = [] ↔ ∀ x, x ∉ l.
Proof.
  split; [intros -> x; apply not_elem_of_nil|apply elem_of_nil_inv].
Qed.

(** The hits of a query are the intervals of the amplicons whose padded span
    contains both endpoints. *)
Lemma hits_spec tol l tree s e :
  indexes tol l tree →
  IntervalTree.data <$>
    list_intersection (IntervalTree.at_ s tree) (IntervalTree.at_ e tree)
  ≡ₚ remove_dups
       (filter (λ a, span_contains tol a s ∧ span_contains tol a e) l).
Proof.
  intros (Hnd & _ & Hiff).
  apply NoDup_Permutation.
  - apply NoDup_fmap_2_strong.
    + intros x y [Hx _]%list_elem_of_intersection [Hy _]%list_elem_of_intersection Hxy.
      apply list_elem_of_filter in Hx as [_ Hx], Hy as [_ Hy].
      apply Hiff in Hx as (ax & _ & Hax), Hy as (ay & _ & Hay).
      pose proof (interval_of_Some _ _ _ Hax) as [<- _].
      pose proof (interval_of_Some _ _ _ Hay) as [<- _].
      rewrite Hxy in Hax. congruence.
    + by apply NoDup_list_intersection, NoDup_filter.
  - apply NoDup_remove_dups.
  - intros a. rewrite elem_of_remove_dups, list_elem_of_filter, list_elem_of_fmap.
    setoid_rewrite list_elem_of_intersection.
    unfold IntervalTree.at_. setoid_rewrite list_elem_of_filter.
    split.
    + intros (iv & -> & [Hs Hin] & [He _]).
      apply Hiff in Hin as (a & Ha & Hiv).
      pose proof (interval_of_Some _ _ _ Hiv) as [-> _].
      split; [|done].
      split; by eapply interval_contains.
    + intros [[Hs He] Ha].
      destruct (span_has_interval tol a) as [iv Hiv].
      { unfold span_contains in Hs. by destruct (padded_span tol a). }
      exists iv. split; [by apply interval_of_Some in Hiv as [-> _]|].
      assert (iv ∈ tree) by (apply Hiff; eauto).
      split; (split; [by eapply interval_contains|done]).
Qed.

Lemma envelop_spec tol l tree s e :
  indexes tol l tree → s < e →
  IntervalTree.envelop s e tree = [] ↔ filter (λ a, span_within tol a s e) l = [].
Proof.
  intros (_ & _ & Hiff) Hse. unfold IntervalTree.envelop.
  rewrite bool_decide_eq_false_2 by lia.
  rewrite !list_nil_iff. setoid_rewrite list_elem_of_filter. split.
  - intros Hnone a [Hin Ha].
    destruct (span_has_interval tol a) as [iv Hiv].
    { unfold span_within in Hin. by destruct (padded_span tol a). }
    apply (Hnone iv). split; [by eapply interval_within|].
    apply Hiff. eauto.
  - intros Hnone iv [Hin Hiv].
    apply Hiff in Hiv as (a & Ha & Hiv).
    apply (Hnone a). split; [by eapply interval_within|done].
Qed.

(** A read that envelops an amplicon is not matched. *)
Lemma match_enveloped name amps tol sn S s e :
  AmpliconSet.init name amps tol sn = Ok S → s < e →
  enveloped tol amps s e ≠ [] →
  AmpliconSet.match_ S s e = Ok None.
Proof.
  intros (_ & _ & Hidx & _)%init_Ok Hse Henv.
  unfold AmpliconSet.match_.
  rewrite bool_decide_eq_true_2; [done|].
  intros Hnil. apply Henv. by eapply envelop_spec.
Qed.

(** Otherwise the outcome is decided by the amplicons that contain both
    endpoints. *)
Lemma match_not_enveloped name amps tol sn S s e :
  AmpliconSet.init name amps tol sn = Ok S → s < e →
  enveloped tol amps s e = [] →
  ∃ hits,
    hits ≡ₚ containing tol amps s e ∧
    AmpliconSet.match_ S s e =
      if decide (hits = []) then Ok None
      else if decide (2 < List.length hits)%nat then Raise (Exception "")
      else Ok (Some hits).
Proof.
  intros (_ & _ & Hidx & _)%init_Ok Hse Henv.
  eexists. split; [by apply hits_spec|].
  unfold AmpliconSet.match_.
  rewrite bool_decide_eq_false_2
    by (intros Hne; apply Hne; by eapply envelop_spec).
  rewrite !length_fmap.
  set (hits := list_intersection _ _).
  destruct hits as [|h1 hits']; [done|].
  rewrite bool_decide_eq_false_2 by done.
  rewrite decide_False by done.
  by destruct (decide (2 < List.length (h1 :: hits'))%nat);
    [rewrite bool_decide_eq_true_2|rewrite bool_decide_eq_false_2].
Qed.

(** C1: when no amplicon is enveloped, [match] is a no-match if no amplicon
    contains both endpoints, raises if more than two do, and otherwise
    returns exactly the one or two amplicons that do. *)
Theorem match_without_envelopment name amps tol sn S (s e : Z) :
  AmpliconSet.init name amps tol sn = Ok S → s < e →
  enveloped tol amps s e = [] →
  (containing tol amps s e = [] → AmpliconSet.match_ S s e = Ok None) ∧
  ((2 < List.length (containing tol amps s e))%nat →
   ∃ msg, AmpliconSet.match_ S s e = Raise (Exception msg)) ∧
  (containing tol amps s e ≠ [] →
   (List.length (containing tol amps s e) ≤ 2)%nat →
   ∃ l, AmpliconSet.match_ S s e = Ok (Some l) ∧
        l ≡ₚ containing tol amps s e ∧
        (List.length l = 1 ∨ List.length l = 2)%nat).
Proof.
  intros Hinit Hse Henv.
  destruct (match_not_enveloped _ _ _ _ _ _ _ Hinit Hse Henv)
    as (hits & Hperm & ->).
  pose proof (Permutation_length Hperm) as Hlen.
  split; [|split].
  - intros Hnil. rewrite Hnil in Hperm.
    apply Permutation_nil_r in Hperm as ->. done.
  - intros Hmany. exists "".
    destruct hits; [simpl in *; lia|]. rewrite decide_False by done.
    rewrite decide_True by lia. done.
  - intros Hne Hfew. exists hits.
    destruct hits as [|h hits].
    { apply Permutation_nil_l in Hperm. by rewrite Hperm in Hne. }
    rewrite decide_False by done. rewrite decide_False by lia.
    split; [done|]. split; [done|]. simpl in *. lia.
Qed.

Lemma match_without_envelopment_witness :
  ∃ l, AmpliconSet.match_ ex_set 198 202 = Ok (Some l) ∧
       l ≡ₚ containing 5 ex_scheme 198 202 ∧
       (List.length l = 1 ∨ List.length l = 2)%nat.
Proof.
  apply (match_without_envelopment "scheme" ex_scheme 5 None ex_set 198 202).
  - vm_compute. reflexivity.
  - lia.
  - vm_compute. reflexivity.
  - vm_compute. discriminate.
  - vm_compute. lia.
Defined.

(** C2: a read that envelops the padded span of some amplicon is a no-match,
    whatever the amplicons containing both endpoints, and no exception is
    raised. *)
Theorem match_envelopment_is_no_match name amps tol sn S (s e : Z) :
  AmpliconSet.init name amps tol sn = Ok S → s < e →
  (∃ a, a ∈ pydict_values amps ∧ span_within tol a s e) →
  AmpliconSet.match_ S s e = Ok None.
Proof.
  intros Hinit Hse (a & Ha & Hin).
  eapply match_enveloped; [done..|].
  intros Hnil. apply (proj1 (list_nil_iff _) Hnil a).
  by apply list_elem_of_filter.
Qed.

(** Three amplicons contain both endpoints of the read [150, 180) and the
    read envelops a fourth: the outcome is a no-match. *)
Lemma match_envelopment_is_no_match_witness :
  (2 < List.length (containing 5 ex_enveloping 150 180))%nat ∧
  AmpliconSet.match_ (build_set "scheme" ex_enveloping None) 150 180 = Ok None.
Proof.
  split; [vm_compute; lia|].
  apply (match_envelopment_is_no_match "scheme" ex_enveloping 5 None).
  - vm_compute. reflexivity.
  - lia.
  - exists ex_D. split; [|vm_compute; split; discriminate].
    unfold ex_enveloping, pydict_values. simpl. set_solver.
Defined.

(** Membership in the two sets of amplicons that decide a query. *)
Lemma elem_of_containing tol amps s e a :
  a ∈ containing tol amps s e ↔
  a ∈ pydict_values amps ∧ span_contains tol a s ∧ span_contains tol a e.
Proof.
  unfold containing. rewrite elem_of_remove_dups, list_elem_of_filter. tauto.
Qed.

Lemma elem_of_enveloped tol amps s e a :
  a ∈ enveloped tol amps s e ↔
  a ∈ pydict_values amps ∧ span_within tol a s e.
Proof. unfold enveloped. rewrite list_elem_of_filter. tauto. Qed.

Lemma span_contains_iff tol a s e p :
  Amplicon.start a = Some s → Amplicon.end_ a = Some e →
  span_contains tol a p ↔ s - tol ≤ p ∧ p < e + tol.
Proof. intros Hs He. unfold span_contains, padded_span. by rewrite Hs, He. Qed.

Lemma span_within_iff tol a s e s' e' :
  Amplicon.start a = Some s → Amplicon.end_ a = Some e →
  span_within tol a s' e' ↔ s' ≤ s - tol ∧ e + tol ≤ e'.
Proof. intros Hs He. unfold span_within, padded_span. by rewrite Hs, He. Qed.

(** C3: the scheme of amplicon A over [100, 200) and amplicon B over
    [195, 300), built with tolerance 5: [match(198, 202)] returns A and B,
    [match(100, 150)] returns A, [match(90, 310)] and [match(10, 20)] are
    no-matches. *)
Theorem tiling_scenario name sn (kA kB : string) (A B : Amplicon.t) S :
  Amplicon.start A = Some 100 → Amplicon.end_ A = Some 200 →
  Amplicon.start B = Some 195 → Amplicon.end_ B = Some 300 →
  AmpliconSet.init name [(kA, A); (kB, B)] 5 sn = Ok S →
  (∃ l, AmpliconSet.match_ S 198 202 = Ok (Some l) ∧ l ≡ₚ [A; B]) ∧
  AmpliconSet.match_ S 100 150 = Ok (Some [A]) ∧
  AmpliconSet.match_ S 90 310 = Ok None ∧
  AmpliconSet.match_ S 10 20 = Ok None.
Proof.
  intros HsA HeA HsB HeB Hinit.
  assert (A ≠ B) as HAB by (intros ->; congruence).
  assert (∀ x, x ∈ pydict_values [(kA, A); (kB, B)] ↔ x = A ∨ x = B) as Hvals.
  { intros x. unfold pydict_values. simpl. set_solver. }
  assert (∀ p, span_contains 5 A p ↔ 95 ≤ p ∧ p < 205) as HcA.
  { intros p. rewrite (span_contains_iff _ _ _ _ _ HsA HeA). lia. }
  assert (∀ p, span_contains 5 B p ↔ 190 ≤ p ∧ p < 305) as HcB.
  { intros p. rewrite (span_contains_iff _ _ _ _ _ HsB HeB). lia. }
  assert (∀ s e, span_within 5 A s e ↔ s ≤ 95 ∧ 205 ≤ e) as HwA.
  { intros s e. rewrite (span_within_iff _ _ _ _ _ _ HsA HeA). lia. }
  assert (∀ s e, span_within 5 B s e ↔ s ≤ 190 ∧ 305 ≤ e) as HwB.
  { intros s e. rewrite (span_within_iff _ _ _ _ _ _ HsB HeB). lia. }
  assert (∀ s e, ¬ (s ≤ 95 ∧ 205 ≤ e) → ¬ (s ≤ 190 ∧ 305 ≤ e) →
                 enveloped 5 [(kA, A); (kB, B)] s e = []) as Hnone.
  { intros s e HnA HnB. apply list_nil_iff. intros x.
    rewrite elem_of_enveloped, Hvals. intros [[-> | ->] Hw].
    - by apply HnA, HwA.
    - by apply HnB, HwB. }
  split; [|split; [|split]].
  - destruct (match_not_enveloped _ _ _ _ _ 198 202 Hinit) as (hits & Hperm & ->);
      [lia|apply Hnone; lia|].
    assert (containing 5 [(kA, A); (kB, B)] 198 202 ≡ₚ [A; B]) as HC.
    { apply NoDup_Permutation.
      - apply NoDup_remove_dups.
      - apply NoDup_cons. split; [set_solver|apply NoDup_singleton].
      - intros x. rewrite elem_of_containing, Hvals.
        split; [set_solver|].
        intros [->|Hx%list_elem_of_singleton]%elem_of_cons; [|subst x].
        + rewrite !HcA. split; [by left|lia].
        + rewrite !HcB. split; [by right|lia]. }
    rewrite HC in Hperm. exists hits.
    pose proof (Permutation_length Hperm) as Hlen. simpl in Hlen.
    destruct hits; [done|].
    rewrite decide_False by done. rewrite decide_False by lia. done.
  - destruct (match_not_enveloped _ _ _ _ _ 100 150 Hinit) as (hits & Hperm & ->);
      [lia|apply Hnone; lia|].
    assert (containing 5 [(kA, A); (kB, B)] 100 150 ≡ₚ [A]) as HC.
    { apply NoDup_Permutation.
      - apply NoDup_remove_dups.
      - apply NoDup_singleton.
      - intros x. rewrite elem_of_containing, Hvals, list_elem_of_singleton.
        split.
        + intros [[->| ->] [Hs He]]; [done|]. apply HcB in Hs. lia.
        + intros ->. rewrite !HcA. split; [by left|lia]. }
    rewrite HC in Hperm. apply Permutation_singleton_r in Hperm as ->. done.
  - eapply match_enveloped; [done|lia|].
    intros Hnil. apply (proj1 (list_nil_iff _) Hnil A).
    rewrite elem_of_enveloped, Hvals, HwA. split; [by left|lia].
  - destruct (match_not_enveloped _ _ _ _ _ 10 20 Hinit) as (hits & Hperm & ->);
      [lia|apply Hnone; lia|].
    assert (containing 5 [(kA, A); (kB, B)] 10 20 = []) as HC.
    { apply list_nil_iff. intros x. rewrite elem_of_containing, Hvals.
      intros [[->| ->] [Hs He]]; [apply HcA in Hs|apply HcB in Hs]; lia. }
    rewrite HC in Hperm. apply Permutation_nil_r in Hperm as ->. done.
Qed.

Lemma tiling_scenario_witness :
  (∃ l, AmpliconSet.match_ ex_set 198 202 = Ok (Some l) ∧ l ≡ₚ [ex_A; ex_B]) ∧
  AmpliconSet.match_ ex_set 100 150 = Ok (Some [ex_A]) ∧
  AmpliconSet.match_ ex_set 90 310 = Ok None ∧
  AmpliconSet.match_ ex_set 10 20 = Ok None.
Proof.
  apply (tiling_scenario "scheme" None "A" "B" ex_A ex_B ex_set);
    vm_compute; reflexivity.
Defined.

(** ** Construction: what is and what is not checked *)

Lemma init_empty name tol sn :
  AmpliconSet.init name [] tol sn = Raise ValueError.
Proof. reflexivity. Qed.

Lemma init_total name amps tol sn :
  Forall (span_proper tol) (pydict_values amps) →
  Exists has_primer (pydict_values amps) →
  ∃ S, AmpliconSet.init name amps tol sn = Ok S.
Proof.
  intros Hproper Hprimer. unfold AmpliconSet.init.
  destruct (build_loop_total tol amps AmpliconSet.empty_building Hproper)
    as [st Hst].
  rewrite Hst. cbn [bind].
  destruct (build_loop _ _ _ _ [] Hst (indexes_nil tol)) as (_ & _ & _ & Hlen).
  apply Exists_exists in Hprimer as (a & Ha & Hp).
  unfold has_primer in Hp.
  destruct (primers_of a) as [|p ps] eqn:Hps; [done|].
  destruct (py_min_total (AmpliconSet.b_primer_lengths st) (Primer.len p))
    as [m Hm].
  { rewrite Hlen. apply elem_of_union_l, elem_of_list_to_set, list_elem_of_fmap.
    exists p. split; [done|]. unfold all_primers.
    apply list_elem_of_bind. exists a. rewrite Hps. split; [left|done]. }
  rewrite Hm. cbn [bind]. by eexists.
Qed.

(** These two conditions are also necessary. *)
Lemma init_Ok_only_if name amps tol sn S :
  AmpliconSet.init name amps tol sn = Ok S →
  Forall (span_proper tol) (pydict_values amps) ∧
  Exists has_primer (pydict_values amps).
Proof.
  intros (_ & _ & (_ & Hproper & _) & _ & _ & Hmin)%init_Ok.
  split; [done|].
  apply py_min_Ok in Hmin as [Hin _].
  apply elem_of_list_to_set, list_elem_of_fmap in Hin as (p & _ & Hp).
  apply list_elem_of_bind in Hp as (a & Hp & Ha).
  apply Exists_exists. exists a. split; [done|].
  unfold has_primer. intros Hnil. rewrite Hnil in Hp. by apply elem_of_nil in Hp.
Qed.

(** C7, amended: construction fails on an empty collection, and it succeeds
    whenever every amplicon has a proper padded span and some amplicon has a
    primer; how many padded spans cover a point plays no part. *)
Theorem construction_checks name amps tol sn :
  Forall (span_proper tol) (pydict_values amps) →
  Exists has_primer (pydict_values amps) →
  AmpliconSet.init name [] tol sn = Raise ValueError ∧
  ∃ S, AmpliconSet.init name amps tol sn = Ok S.
Proof.
  intros Hproper Hprimer. split; [apply init_empty|by apply init_total].
Qed.

Lemma construction_checks_witness :
  AmpliconSet.init "scheme" [] 5 None = Raise ValueError ∧
  ∃ S, AmpliconSet.init "scheme" ex_overlapping 5 None = Ok S.
Proof.
  apply (construction_checks "scheme" ex_overlapping 5 None).
  - unfold ex_overlapping, pydict_values. simpl.
    repeat (apply Forall_cons; split); [..|apply Forall_nil];
      vm_compute; reflexivity.
  - apply Exists_cons_hd. vm_compute. discriminate.
Defined.

(** C7 as stated fails: the padded spans of A, B and C all cover position
    198 and the scheme is built all the same; the overlap is only met by
    [match]. *)
Lemma construction_accepts_triple_overlap :
  AmpliconSet.init "scheme" ex_overlapping 5 None
    = Ok (build_set "scheme" ex_overlapping None) ∧
  span_contains 5 ex_A 198 ∧ span_contains 5 ex_B 198 ∧
  span_contains 5 ex_C 198 ∧
  AmpliconSet.match_ (build_set "scheme" ex_overlapping None) 198 199
    = Raise (Exception "").
Proof. vm_compute. repeat split; discriminate. Qed.

(** ** The sequence table *)

Section pydict_facts.
Context {K V : Type} `{EqDecision K}.
Implicit Types (d : pydict K V) (l : list (K * V)).

Lemma pydict_set_elem_of k v d kv :
  kv ∈ pydict_set k v d → kv = (k, v) ∨ kv ∈ d.
Proof.
  induction d as [|[k' v'] d IH]; simpl.
  - intros ?%list_elem_of_singleton. by left.
  - destruct (decide (k' = k)) as [->|Hne]; rewrite !elem_of_cons; naive_solver.
Qed.

Lemma pydict_set_here k v d : (k, v) ∈ pydict_set k v d.
Proof.
  induction d as [|[k' v'] d IH]; simpl; [left|].
  destruct (decide (k' = k)); [left|by right].
Qed.

Lemma pydict_set_keeps k v k' v' d :
  (k, v) ∈ d → (k' = k → v' = v) → (k, v) ∈ pydict_set k' v' d.
Proof.
  intros Hin Hsame. induction d as [|[k0 v0] d IH]; simpl.
  - by apply elem_of_nil in Hin.
  - apply elem_of_cons in Hin as [[= <- <-]|Hin].
    + destruct (decide (k = k')) as [->|]; [|left].
      rewrite Hsame by done. left.
    + destruct (decide (k0 = k')); right; [done|by apply IH].
Qed.

Lemma pydict_fold_subset l d kv :
  kv ∈ foldl (λ d kv, pydict_set kv.1 kv.2 d) d l → kv ∈ l ∨ kv ∈ d.
Proof.
  revert d. induction l as [|[k v] l IH]; intros d; simpl; [by right|].
  intros [?|[->|?]%pydict_set_elem_of]%IH.
  - left. by right.
  - left. left.
  - by right.
Qed.

Lemma pydict_fold_keeps l d k v :
  (k, v) ∈ d → (∀ v', (k, v') ∈ l → v' = v) →
  (k, v) ∈ foldl (λ d kv, pydict_set kv.1 kv.2 d) d l.
Proof.
  revert d. induction l as [|[k1 v1] l IH]; intros d Hin Hsame; simpl; [done|].
  apply IH.
  - apply pydict_set_keeps; [done|]. intros ->. apply Hsame. left.
  - intros v' ?. apply Hsame. by right.
Qed.

Lemma pydict_fold_elem l d k v :
  (k, v) ∈ l → (∀ v', (k, v') ∈ l → v' = v) →
  (k, v) ∈ foldl (λ d kv, pydict_set kv.1 kv.2 d) d l.
Proof.
  revert d. induction l as [|[k1 v1] l IH]; intros d Hin Hsame; simpl.
  - by apply elem_of_nil in Hin.
  - apply elem_of_cons in Hin as [[= <- <-]|Hin].
    + apply pydict_fold_keeps; [apply pydict_set_here|].
      intros v' ?. apply Hsame. by right.
    + apply IH; [done|]. intros v' ?. apply Hsame. by right.
Qed.
End pydict_facts.

(** The value that a run of insertions leaves under a key on which all the
    insertions agree. *)
Lemma fold_insert_lookup {K V X} `{Countable K} (fk : X → K) (fv : X → V)
    (l : list X) (m : gmap K V) (x : X) :
  x ∈ l → (∀ y, y ∈ l → fk y = fk x → fv y = fv x) →
  foldl (λ m y, <[fk y := fv y]> m) m l !! fk x = Some (fv x).
Proof.
  assert (∀ (l : list X) (m : gmap K V), m !! fk x = Some (fv x) →
            (∀ y, y ∈ l → fk y = fk x → fv y = fv x) →
            foldl (λ m y, <[fk y := fv y]> m) m l !! fk x = Some (fv x)) as Hkeep.
  { clear l m. induction l as [|y l IH]; intros m Hm Hsame; simpl; [done|].
    apply IH; [|intros z ?; apply Hsame; by right].
    destruct (decide (fk y = fk x)) as [Heq|Hne].
    - rewrite Heq, lookup_insert_eq. f_equal. apply Hsame; [left|done].
    - by rewrite lookup_insert_ne. }
  revert m. induction l as [|y l IH]; intros m Hin Hsame; simpl.
  - by apply elem_of_nil in Hin.
  - apply elem_of_cons in Hin as [<-|Hin].
    + apply Hkeep; [apply lookup_insert_eq|]. intros z ?. apply Hsame. by right.
    + apply IH; [done|]. intros z ?. apply Hsame. by right.
Qed.

Lemma NoDup_fmap_eq {A B} (f : A → B) (l : list A) (x y : A) :
  NoDup (f <$> l) → x ∈ l → y ∈ l → f x = f y → x = y.
Proof.
  induction l as [|z l IH]; simpl; [by intros _ ?%elem_of_nil|].
  intros [Hz Hnd]%NoDup_cons [->|Hx]%elem_of_cons [->|Hy]%elem_of_cons Hxy.
  - done.
  - exfalso. apply Hz. rewrite Hxy. by apply list_elem_of_fmap_2.
  - exfalso. apply Hz. rewrite <-Hxy. by apply list_elem_of_fmap_2.
  - by apply IH.
Qed.

(** Two occurrences of primers with the same image under [g] lie in the same
    amplicon when the images of all occurrences are pairwise distinct. *)
Lemma NoDup_bind_owner {A B C} (h : A → list B) (g : B → C) (l : list A)
    (a a' : A) (b b' : B) :
  NoDup (g <$> (l ≫= h)) →
  a ∈ l → b ∈ h a → a' ∈ l → b' ∈ h a' → g b = g b' → a = a'.
Proof.
  induction l as [|z l IH]; [by intros _ ?%elem_of_nil|].
  change ((z :: l) ≫= h) with (h z ++ (l ≫= h)). rewrite fmap_app.
  intros (_ & Hdisj & Hnd)%NoDup_app Ha Hb Ha' Hb' Hg.
  assert (∀ x y, x ∈ l → y ∈ h x → g y ∈ g <$> (l ≫= h)) as Hrest.
  { intros x y ??. apply list_elem_of_fmap_2, list_elem_of_bind. eauto. }
  apply elem_of_cons in Ha as [->|Ha], Ha' as [->|Ha'].
  - done.
  - exfalso. apply (Hdisj (g b)); [by apply list_elem_of_fmap_2|].
    rewrite Hg. by eapply Hrest.
  - exfalso. apply (Hdisj (g b')); [by apply list_elem_of_fmap_2|].
    rewrite <-Hg. by eapply Hrest.
  - by eapply IH.
Qed.

Lemma elem_of_owners amps k a :
  (k, a) ∈ owners amps ↔
  a ∈ pydict_values amps ∧ ∃ p, p ∈ primers_of a ∧ k = Primer.seq p.
Proof.
  unfold owners. rewrite list_elem_of_bind. split.
  - intros (a' & (p & [= -> ->] & Hp)%list_elem_of_fmap & Ha). eauto.
  - intros (Ha & p & Hp & ->). exists a. split; [|done].
    apply list_elem_of_fmap. eauto.
Qed.

Lemma owners_agree amps (g : string → string) k a k' a' :
  NoDup ((λ p, g (Primer.seq p)) <$> all_primers amps) →
  (k, a) ∈ owners amps → (k', a') ∈ owners amps → g k = g k' → a = a'.
Proof.
  intros Hnd (Ha & p & Hp & ->)%elem_of_owners (Ha' & p' & Hp' & ->)%elem_of_owners Hg.
  by eapply (NoDup_bind_owner primers_of (λ p, g (Primer.seq p))).
Qed.

(** C9: in a set whose primers have pairwise distinct prefixes of length
    [min_primer_length], which is the least primer length of the set, the
    prefix of every primer is mapped by [seqs] to the amplicon the primer
    belongs to. *)
Theorem sequence_lookup name amps tol sn S :
  AmpliconSet.init name amps tol sn = Ok S →
  NoDup ((λ p, str_prefix (AmpliconSet.min_primer_length S) (Primer.seq p))
           <$> all_primers amps) →
  (∀ p, p ∈ all_primers amps →
        (AmpliconSet.min_primer_length S ≤ String.length (Primer.seq p))%nat) ∧
  (∃ p, p ∈ all_primers amps ∧
        String.length (Primer.seq p) = AmpliconSet.min_primer_length S) ∧
  ∀ a p, a ∈ pydict_values amps → p ∈ primers_of a →
    AmpliconSet.seqs S
      !! str_prefix (AmpliconSet.min_primer_length S) (Primer.seq p) = Some a.
Proof.
  intros (_ & _ & _ & _ & Hseqs & Hmin)%init_Ok Hnd.
  apply py_min_Ok in Hmin as [Hin Hle].
  split; [|split].
  - intros p Hp. apply Hle, elem_of_list_to_set.
    by apply (list_elem_of_fmap_2 Primer.len).
  - apply elem_of_list_to_set, list_elem_of_fmap in Hin as (p & Hlen & Hp).
    by exists p.
  - intros a p Ha Hp. rewrite Hseqs.
    set (m := AmpliconSet.min_primer_length S) in *.
    set (sequences :=
           foldl (λ (d : pydict string Amplicon.t) kv, pydict_set kv.1 kv.2 d)
                 [] (owners amps)).
    assert ((Primer.seq p, a) ∈ owners amps) as Hown
      by (apply elem_of_owners; eauto).
    assert (∀ kv, kv ∈ sequences → kv ∈ owners amps) as Hsub.
    { intros kv [?|?%elem_of_nil]%pydict_fold_subset; done. }
    assert ((Primer.seq p, a) ∈ sequences) as Hhere.
    { apply pydict_fold_elem; [done|]. intros v' Hv'.
      by eapply (owners_agree amps (str_prefix m)). }
    apply (fold_insert_lookup (λ kv, str_prefix m kv.1) snd sequences ∅
             (Primer.seq p, a)); [done|].
    intros [k' a'] Hk' Hpre. simpl in *.
    by eapply (owners_agree amps (str_prefix m)); [| apply Hsub | |].
Qed.

Lemma sequence_lookup_witness :
  AmpliconSet.seqs ex_set !! str_prefix 10 "GGCATTACGATT" = Some ex_B.
Proof.
  refine (proj2 (proj2 (sequence_lookup "scheme" ex_scheme 5 None ex_set _ _))
            ex_B (Primer.mk "B_LEFT" "GGCATTACGATT" true true 195) _ _).
  - vm_compute. reflexivity.
  - vm_compute. repeat (apply NoDup_cons; split; [set_solver|]). apply NoDup_nil_2.
  - unfold ex_scheme, pydict_values. simpl. set_solver.
  - vm_compute. left.
Defined.

(** ** The shortname of a set *)

(** The derived shortname is one character out of the 54 characters with
    codes 65 to 118, and it depends on the name only. *)
Lemma derived_shortname_alphabet (name : string) :
  ∃ c : ascii,
    AmpliconSet.derived_shortname name = String c "" ∧ 65 ≤ ord c ≤ 118.
Proof.
  unfold AmpliconSet.derived_shortname, chr.
  set (code := (sum_ord name - ord "A") `mod` 54 + 65).
  assert (65 ≤ code ≤ 118) as Hcode.
  { unfold code. pose proof (Z.mod_pos_bound (sum_ord name - ord "A") 54). lia. }
  eexists. split; [done|]. unfold ord.
  rewrite nat_ascii_embedding by lia. lia.
Qed.

(** C6: constructing a set with the explicit shortname "a" assigns no
    shortname at all, so reading the attribute raises; [__init__] has no
    branch for a supplied shortname. *)
Theorem explicit_shortname_is_dropped :
  ∃ S, AmpliconSet.init "scheme" ex_scheme 5 (Some "a") = Ok S ∧
       AmpliconSet.shortname S = None ∧
       AmpliconSet.get_shortname S = Raise AttributeError.
Proof. eexists. split; [vm_compute; reflexivity|]. split; reflexivity. Qed.

(** ** Tags *)

Lemma foldl_snoc_fmap {A B} (f : A → B) (l : list A) (acc : list B) :
  foldl (λ acc x, acc ++ [f x]) acc l = acc ++ (f <$> l).
Proof.
  revert acc. induction l as [|x l IH]; intros acc; simpl.
  - by rewrite app_nil_r.
  - by rewrite IH, <-app_assoc.
Qed.

(** The id table resolves the shortname of each amplicon to the amplicon. *)
Lemma ids_lookup (amps : pydict string Amplicon.t) (a : Amplicon.t) :
  NoDup (Amplicon.shortname <$> pydict_values amps) →
  a ∈ pydict_values amps →
  foldl (λ m a, <[Amplicon.shortname a := a]> m) (∅ : gmap Z Amplicon.t)
        (pydict_values amps) !! Amplicon.shortname a = Some a.
Proof.
  intros Hnd Ha.
  apply (fold_insert_lookup Amplicon.shortname id); [done|].
  intros b Hb Hsn. by eapply NoDup_fmap_eq.
Qed.

Section tag_facts.
Context {R : Type} `{ReadAPI R}.

Lemma set_tags_single (S : AmpliconSet.t) (c : string) (read : R)
  (M : list Amplicon.t) :
AmpliconSet.shortname S = Some c →
set_tags [S] read {[ AmpliconSet.name S := M ]} =
Ok (read_set_tags
      ((λ a, ("Z" +:+ c, TInt (Amplicon.shortname a), "i")) <$> M) read).
Proof.
intros Hc. unfold set_tags, AmpliconSet.get_shortname. simpl.
rewrite Hc. simpl. rewrite lookup_singleton_eq. simpl.
by rewrite foldl_snoc_fmap.
Qed.

Lemma get_tags_loop (S : AmpliconSet.t) (c : ascii) (M acc : list Amplicon.t)
  (body := λ (matches : list Amplicon.t) item,
      let* (tag, amplicon_id) := unpack2 item in
      let* c0 := str_index tag 0 in
      let* selected :=
        (if bool_decide (c0 = "Z") then
           let* c1 := str_index tag 1 in
           let* shortname := AmpliconSet.get_shortname S in
           Ok (bool_decide (c1 = shortname))
         else Ok false) in
      if selected : bool then
        let* amplicon := ids_getitem (AmpliconSet.amplicon_ids S) amplicon_id in
        Ok (matches ++ [amplicon])
      else Ok matches) :
AmpliconSet.shortname S = Some (String c "") →
(∀ a, a ∈ M → AmpliconSet.amplicon_ids S !! Amplicon.shortname a = Some a) →
foldM body
  (as_pair <$> ((λ a, ("Z" +:+ String c "", TInt (Amplicon.shortname a), "i"))
                  <$> M)) acc
= Ok (acc ++ M).
Proof.
intros Hc Hids. revert acc.
induction M as [|a M IH]; intros acc; simpl.
- by rewrite app_nil_r.
- unfold body at 1, AmpliconSet.get_shortname. simpl. rewrite Hc. simpl.
  rewrite bool_decide_eq_true_2 by done.
  rewrite Hids by left. simpl.
  rewrite IH by (intros b ?; apply Hids; by right).
  by rewrite <-app_assoc.
Qed.

(** C4, amended: for a set built without an explicit shortname whose
  amplicons have pairwise distinct shortnames, and a read whose
  [get_tags] yields the [(key, value)] pairs of the tags last written,
  [get_tags] after [set_tags] returns the list of amplicons that was
  written. *)
Theorem tags_round_trip name amps tol sn S (read : R) (M : list Amplicon.t) :
(∀ ts r, read_get_tags (read_set_tags ts r) = as_pair <$> ts) →
AmpliconSet.init name amps tol sn = Ok S →
AmpliconSet.not_ sn = true →
NoDup (Amplicon.shortname <$> pydict_values amps) →
M ⊆ pydict_values amps →
∃ read', set_tags [S] read {[ name := M ]} = Ok read' ∧
         get_tags S read' = Ok M.
Proof.
intros Hread (Hname & Hsn & _ & Hids & _)%init_Ok Hnot Hnd HM.
rewrite Hnot in Hsn.
destruct (derived_shortname_alphabet name) as (c & Hc & _).
rewrite Hc in Hsn. rewrite <-Hname.
eexists. split; [by apply set_tags_single|].
unfold get_tags. rewrite Hread.
apply (get_tags_loop S c M []); [done|].
intros a Ha. rewrite Hids. apply ids_lookup; [done|by apply HM].
Qed.
End tag_facts.

Lemma tags_round_trip_witness :
  ∃ read', set_tags [ex_set] (PairRead []) {[ "scheme" := [ex_B; ex_A] ]}
             = Ok read' ∧
           get_tags ex_set read' = Ok [ex_B; ex_A].
Proof.
  apply (tags_round_trip "scheme" ex_scheme 5 None ex_set (PairRead [])).
  - intros ts r. reflexivity.
  - vm_compute. reflexivity.
  - reflexivity.
  - vm_compute. apply NoDup_cons. split; [set_solver|apply NoDup_singleton].
  - unfold ex_scheme, pydict_values. simpl. set_solver.
Defined.

(** C4 as stated fails.  On a read that yields [(key, value, type)]
    triples, [get_tags] raises on the first tag that [set_tags] wrote.  On a
    read that yields pairs, a set in which two amplicons share a shortname
    answers with the amplicon stored last under that shortname. *)
Lemma tags_round_trip_fails :
  (AmpliconSet.init "scheme" ex_scheme 5 None = Ok ex_set ∧
   ex_A ∈ pydict_values ex_scheme ∧
   ∃ read', set_tags [ex_set] (TripleRead []) {[ "scheme" := [ex_A] ]}
              = Ok read' ∧
            get_tags ex_set read' = Raise ValueError) ∧
  (AmpliconSet.init "scheme" ex_clash 5 None = Ok ex_clash_set ∧
   ex_A ∈ pydict_values ex_clash ∧
   ∃ read', set_tags [ex_clash_set] (PairRead []) {[ "scheme" := [ex_A] ]}
              = Ok read' ∧
            get_tags ex_clash_set read' = Ok [ex_G] ∧ ex_G ≠ ex_A).
Proof.
  split.
  - split; [vm_compute; reflexivity|]. split; [left|].
    eexists. split; vm_compute; reflexivity.
  - split; [vm_compute; reflexivity|]. split; [left|].
    eexists. split; [vm_compute; reflexivity|].
    split; [vm_compute; reflexivity|]. vm_compute. discriminate.
Qed.

(** [set_tags] raises only when a set has no shortname attribute; shortnames
    shared between sets do not stop it. *)
Lemma set_tags_total {R : Type} `{ReadAPI R} (sets : list AmpliconSet.t)
    (read : R) (matches : gmap string (list Amplicon.t)) :
  Forall (λ S, is_Some (AmpliconSet.shortname S)) sets →
  ∃ read', set_tags sets read matches = Ok read'.
Proof.
  intros Hall. unfold set_tags.
  generalize (([], ∅) : list tag * gset string).
  induction Hall as [|S sets [c Hc] _ IH]; intros [tags shortnames]; simpl.
  - by eexists.
  - unfold AmpliconSet.get_shortname at 1. rewrite Hc. simpl.
    destruct (matches !! AmpliconSet.name S); simpl; apply IH.
Qed.

(** C5: two sets that share the shortname "A" are tagged without any
    exception, and their tags end up under the same key. *)
Theorem duplicate_shortname_not_raised :
  AmpliconSet.shortname (build_set "A" ex_scheme None) = Some "A" ∧
  AmpliconSet.shortname (build_set "w" ex_scheme None) = Some "A" ∧
  set_tags [build_set "A" ex_scheme None; build_set "w" ex_scheme None]
           (PairRead []) {[ "A" := [ex_A]; "w" := [ex_B] ]}
  = Ok (PairRead [("ZA", TInt 0, "i"); ("ZA", TInt 1, "i")]).
Proof. vm_compute. repeat split. Qed.

(** * Further properties *)

(** ** Amplicon.add: what an amplicon holds after a run of additions *)

(** The fields that one [add] touches besides the regions. *)
Lemma add_fields (p : Primer.t) (a a' : Amplicon.t) :
  Amplicon.add p a = Ok a' →
  Amplicon.shortname a' = Amplicon.shortname a ∧
  Amplicon.name a' = Amplicon.name a ∧
  Amplicon.left a' = Amplicon.left a ++ (if Primer.left p then [p] else []) ∧
  Amplicon.right a' = Amplicon.right a ++ (if Primer.left p then [] else [p]) ∧
  Amplicon.max_length a' = (Amplicon.max_length a `max` Primer.len p)%nat.
Proof.
  destruct a as [sn nm st en l r lr rr ml], p as [pn ps pl pf pp].
  unfold Amplicon.add, Primer.len. simpl.
  destruct pl, lr as [[ls le]|], rr as [[rs re]|], st as [s|], en as [e|];
    case_bool_decide; simpl; intros [= <-]; simpl;
    rewrite ?app_nil_r; repeat split; try lia.
Qed.

Lemma add_all_fields (ps : list Primer.t) (a a' : Amplicon.t) :
  Amplicon.add_all ps a = Ok a' →
  Amplicon.shortname a' = Amplicon.shortname a ∧
  Amplicon.name a' = Amplicon.name a ∧
  Amplicon.left a' =
    Amplicon.left a ++ filter (λ p, Primer.left p = true) ps ∧
  Amplicon.right a' =
    Amplicon.right a ++ filter (λ p, Primer.left p = false) ps ∧
  Amplicon.max_length a' =
    (Amplicon.max_length a `max` max_list (Primer.len <$> ps))%nat.
Proof.
  unfold Amplicon.add_all. revert a.
  induction ps as [|p ps IH]; intros a; simpl.
  - intros [= <-]. rewrite !app_nil_r. repeat split. lia.
  - intros (a1 & Hadd & Hrest)%bind_Ok.
    apply add_fields in Hadd as (Hsn & Hnm & Hl & Hr & Hml).
    apply IH in Hrest as (Hsn' & Hnm' & Hl' & Hr' & Hml').
    rewrite Hsn', Hnm', Hl', Hr', Hml', Hsn, Hnm, Hl, Hr, Hml.
    rewrite !filter_cons.
    destruct (Primer.left p); simpl; rewrite <-?app_assoc, ?app_nil_r;
      repeat split; symmetry; apply Nat.max_assoc.
Qed.

(** X1: Adding primers to a fresh amplicon never fails; the amplicon keeps its
    name and shortname, files the primers by side in the order given, and
    records the greatest sequence length. *)
Theorem add_all_contents (name : string) (shortname : Z) (ps : list Primer.t) :
  ∃ a, Amplicon.add_all ps (Amplicon.new name shortname) = Ok a ∧
       Amplicon.name a = name ∧
       Amplicon.shortname a = shortname ∧
       Amplicon.left a = filter (λ p, Primer.left p = true) ps ∧
       Amplicon.right a = filter (λ p, Primer.left p = false) ps ∧
       Amplicon.max_length a = max_list (Primer.len <$> ps).
Proof.
  destruct (add_all_regions ps _ (new_coherent name shortname))
    as (a & Ha & _).
  exists a. split; [done|].
  apply add_all_fields in Ha as (Hsn & Hnm & Hl & Hr & Hml).
  by rewrite Hsn, Hnm, Hl, Hr, Hml.
Qed.

(** The hull of a run of footprints: it covers every footprint and the
    region it started from, and each bound comes from a footprint or from
    that region. *)
Lemma foldl_hull_spec (ps : list Primer.t) (r : option (Z * Z)) :
  match foldl hull r ps with
  | None => r = None ∧ ps = []
  | Some (s, e) =>
      (∀ p, p ∈ ps → s ≤ Primer.pos p ∧ Primer.primer_end p ≤ e) ∧
      (∀ s0 e0, r = Some (s0, e0) → s ≤ s0 ∧ e0 ≤ e) ∧
      ((∃ p, p ∈ ps ∧ Primer.pos p = s) ∨ ∃ e0, r = Some (s, e0)) ∧
      ((∃ p, p ∈ ps ∧ Primer.primer_end p = e) ∨ ∃ s0, r = Some (s0, e))
  end.
Proof.
  revert r. induction ps as [|p ps IH]; intros r; simpl.
  - destruct r as [[s e]|]; [|done].
    split; [by intros p ?%elem_of_nil|].
    split; [intros s0 e0 [= <- <-]; lia|].
    split; right; eauto.
  - specialize (IH (hull r p)).
    destruct (foldl hull (hull r p) ps) as [[s e]|]; [|by destruct r as [[??]|], IH].
    destruct IH as (Hcov & Hfrom & Hs & He).
    assert (s ≤ Primer.pos p ∧ Primer.primer_end p ≤ e) as Hp.
    { destruct r as [[s0 e0]|]; simpl in Hfrom;
        edestruct Hfrom as [??]; [done|lia|done|lia]. }
    split; [|split; [|split]].
    + intros q [->|?]%elem_of_cons; [done|by apply Hcov].
    + intros s0 e0 ->. simpl in Hfrom. edestruct Hfrom as [??]; [done|lia].
    + destruct Hs as [(q & ? & ?)|[e0 Hr]].
      * left. exists q. split; [by right|done].
      * destruct r as [[s0 e1]|]; simpl in Hr; injection Hr as Hs0 _.
        -- destruct (Z.min_spec (Primer.pos p) s0) as [[_ Hm]|[_ Hm]].
           ++ left. exists p. split; [left|lia].
           ++ right. exists e1. f_equal. f_equal. lia.
        -- left. exists p. split; [left|done].
    + destruct He as [(q & ? & ?)|[s0 Hr]].
      * left. exists q. split; [by right|done].
      * destruct r as [[s1 e0]|]; simpl in Hr; injection Hr as _ He0.
        -- destruct (Z.max_spec (Primer.primer_end p) e0) as [[_ Hm]|[_ Hm]].
           ++ right. exists s1. f_equal. f_equal. lia.
           ++ left. exists p. split; [left|lia].
        -- left. exists p. split; [left|done].
Qed.

(** The region of one side after additions to a fresh amplicon. *)
Lemma side_region_fresh (side : bool) (ps : list Primer.t) :
  match side_region side ps None with
  | None => ∀ p, p ∈ ps → Primer.left p ≠ side
  | Some (s, e) =>
      (∀ p, p ∈ ps → Primer.left p = side →
            s ≤ Primer.pos p ∧ Primer.primer_end p ≤ e) ∧
      (∃ p, p ∈ ps ∧ Primer.left p = side ∧ Primer.pos p = s) ∧
      (∃ p, p ∈ ps ∧ Primer.left p = side ∧ Primer.primer_end p = e)
  end.
Proof.
  unfold side_region.
  pose proof (foldl_hull_spec (filter (λ p, Primer.left p = side) ps) None) as Hspec.
  destruct (foldl hull None _) as [[s e]|].
  - destruct Hspec as (Hcov & _ & Hs & He).
    split; [|split].
    + intros p ??. apply Hcov. by apply list_elem_of_filter.
    + destruct Hs as [(p & [??]%list_elem_of_filter & ?)|[? [=]]]. eauto.
    + destruct He as [(p & [??]%list_elem_of_filter & ?)|[? [=]]]. eauto.
  - destruct Hspec as [_ Hnil]. intros p Hp Hside.
    assert (p ∈ filter (λ p, Primer.left p = side) ps) as Hin
      by (by apply list_elem_of_filter).
    rewrite Hnil in Hin. by apply elem_of_nil in Hin.
Qed.

(** X2: After additions to a fresh amplicon, [start] is the least position of
    the left primers and the left region runs from it to their greatest end;
    [end] is the greatest end of the right primers and the right region runs
    from their least position to it.  A side without primers has no region
    and leaves [start], respectively [end], unset. *)
Theorem add_all_span (name : string) (shortname : Z) (ps : list Primer.t) :
  ∃ a, Amplicon.add_all ps (Amplicon.new name shortname) = Ok a ∧
    match Amplicon.left_primer_region a with
    | None =>
        Amplicon.start a = None ∧ ∀ p, p ∈ ps → Primer.left p = false
    | Some (s, e) =>
        Amplicon.start a = Some s ∧
        (∀ p, p ∈ ps → Primer.left p = true →
              s ≤ Primer.pos p ∧ Primer.primer_end p ≤ e) ∧
        (∃ p, p ∈ ps ∧ Primer.left p = true ∧ Primer.pos p = s) ∧
        (∃ p, p ∈ ps ∧ Primer.left p = true ∧ Primer.primer_end p = e)
    end ∧
    match Amplicon.right_primer_region a with
    | None =>
        Amplicon.end_ a = None ∧ ∀ p, p ∈ ps → Primer.left p = true
    | Some (s, e) =>
        Amplicon.end_ a = Some e ∧
        (∀ p, p ∈ ps → Primer.left p = false →
              s ≤ Primer.pos p ∧ Primer.primer_end p ≤ e) ∧
        (∃ p, p ∈ ps ∧ Primer.left p = false ∧ Primer.pos p = s) ∧
        (∃ p, p ∈ ps ∧ Primer.left p = false ∧ Primer.primer_end p = e)
    end.
Proof.
  destruct (add_all_regions ps _ (new_coherent name shortname))
    as (a & Ha & [Hs He] & Hl & Hr).
  exists a. split; [done|]. simpl in Hl, Hr.
  pose proof (side_region_fresh true ps) as Hleft.
  pose proof (side_region_fresh false ps) as Hright.
  rewrite Hs, He, Hl, Hr. split.
  - destruct (side_region true ps None) as [[s e]|]; simpl; [by split|].
    split; [done|]. intros p Hp. specialize (Hleft p Hp).
    by destruct (Primer.left p).
  - destruct (side_region false ps None) as [[s e]|]; simpl; [by split|].
    split; [done|]. intros p Hp. specialize (Hright p Hp).
    by destruct (Primer.left p).
Qed.

(** X3: On an amplicon that received a left and a right primer,
    [position_in_primer] never fails and answers [True] for every position
    strictly inside the footprint of a primer that was added. *)
Theorem position_in_primer_after_add (name : string) (shortname : Z)
    (ps : list Primer.t) (a : Amplicon.t) (position : Z) :
  Amplicon.add_all ps (Amplicon.new name shortname) = Ok a →
  (∃ p, p ∈ ps ∧ Primer.left p = true) →
  (∃ p, p ∈ ps ∧ Primer.left p = false) →
  ∃ b, Amplicon.position_in_primer a position = Ok b ∧
       ((∃ p, p ∈ ps ∧ Primer.pos p < position ∧
              position < Primer.primer_end p) → b = true).
Proof.
  intros Ha (pl & Hpl & Hleft) (pr & Hpr & Hright).
  destruct (add_all_regions ps _ (new_coherent name shortname))
    as (a' & Ha' & _ & Hl & Hr).
  assert (a' = a) as -> by congruence. simpl in Hl, Hr.
  pose proof (side_region_fresh true ps) as Hsl.
  pose proof (side_region_fresh false ps) as Hsr.
  unfold Amplicon.position_in_primer, in_range. rewrite Hl, Hr.
  destruct (side_region true ps None) as [[ls le]|]; [|by destruct (Hsl pl)].
  destruct (side_region false ps None) as [[rs re]|]; [|by destruct (Hsr pr)].
  destruct Hsl as [Hcl _], Hsr as [Hcr _]. simpl.
  destruct (bool_decide (position < le) && bool_decide (position > ls)) eqn:Hin.
  - by exists true.
  - eexists. split; [done|]. intros (p & Hp & Hlo & Hhi).
    apply andb_true_iff. rewrite !bool_decide_eq_true.
    destruct (Primer.left p) eqn:Hside.
    + destruct (Hcl p Hp Hside).
      apply andb_false_iff in Hin
        as [Hin%bool_decide_eq_false|Hin%bool_decide_eq_false]; lia.
    + destruct (Hcr p Hp Hside). lia.
Qed.

Lemma position_in_primer_after_add_witness :
  ∃ b, Amplicon.position_in_primer ex_A 105 = Ok b ∧
       ((∃ p, p ∈ [Primer.mk "A_LEFT" "ACGTACGTAC" true true 100;
                   Primer.mk "A_RIGHT" "TTGACCATGG" false false 190] ∧
              Primer.pos p < 105 ∧ 105 < Primer.primer_end p) → b = true).
Proof.
  apply (position_in_primer_after_add "A" 0).
  - reflexivity.
  - eexists. split; [left|reflexivity].
  - eexists. split; [right; left|reflexivity].
Defined.

(** ** AmpliconSet.match: every outcome, for any two endpoints *)

(** No read with [start >= end] envelops a proper span, which is what
    [envelop] answers for such a range. *)
Lemma envelop_spec_any tol l tree s e :
  indexes tol l tree →
  IntervalTree.envelop s e tree = [] ↔ filter (λ a, span_within tol a s e) l = [].
Proof.
  intros Hidx. destruct (decide (s < e)) as [Hse|Hse]; [by apply envelop_spec|].
  unfold IntervalTree.envelop. rewrite bool_decide_eq_true_2 by lia.
  split; [intros _|done].
  apply list_nil_iff. intros a [Hw Ha]%list_elem_of_filter.
  destruct Hidx as (_ & Hproper & _).
  eapply Forall_forall in Hproper; [|done].
  unfold span_within, span_proper in *.
  destruct (padded_span tol a) as [[b e']|]; [lia|done].
Qed.

Lemma match_outcome name amps tol sn S s e :
  AmpliconSet.init name amps tol sn = Ok S →
  ∃ hits,
    hits ≡ₚ containing tol amps s e ∧
    AmpliconSet.match_ S s e =
      if decide (enveloped tol amps s e = []) then
        if decide (hits = []) then Ok None
        else if decide (2 < List.length hits)%nat then Raise (Exception "")
        else Ok (Some hits)
      else Ok None.
Proof.
  intros (_ & _ & Hidx & _)%init_Ok.
  eexists. split; [by apply hits_spec|].
  unfold AmpliconSet.match_.
  pose proof (envelop_spec_any tol _ _ s e Hidx) as Henv.
  destruct (decide (enveloped tol amps s e = [])) as [Hnil|Hne].
  - rewrite bool_decide_eq_false_2 by (intros Hx; apply Hx; by apply Henv).
    rewrite !length_fmap.
    set (hits := list_intersection _ _).
    destruct hits as [|h1 hits']; [done|].
    rewrite bool_decide_eq_false_2 by done.
    rewrite decide_False by done.
    by destruct (decide (2 < List.length (h1 :: hits'))%nat);
      [rewrite bool_decide_eq_true_2|rewrite bool_decide_eq_false_2].
  - rewrite bool_decide_eq_true_2; [done|].
    intros Hx. apply Hne. by apply Henv.
Qed.

Lemma containing_NoDup tol amps s e : NoDup (containing tol amps s e).
Proof. apply NoDup_remove_dups. Qed.

(** X6: For a read with [end <= start] nothing counts as enveloped: [match] is
    decided by the amplicons whose padded span contains both endpoints, a
    no-match for none, an exception for more than two. *)
Theorem match_degenerate_read name amps tol sn S (s e : Z) :
  AmpliconSet.init name amps tol sn = Ok S → e ≤ s →
  (containing tol amps s e = [] → AmpliconSet.match_ S s e = Ok None) ∧
  ((2 < List.length (containing tol amps s e))%nat →
   AmpliconSet.match_ S s e = Raise (Exception "")) ∧
  (containing tol amps s e ≠ [] →
   (List.length (containing tol amps s e) ≤ 2)%nat →
   ∃ l, AmpliconSet.match_ S s e = Ok (Some l) ∧
        l ≡ₚ containing tol amps s e).
Proof.
  intros Hinit Hes.
  destruct (match_outcome _ _ _ _ _ s e Hinit) as (hits & Hperm & ->).
  pose proof Hinit as (_ & _ & (_ & Hproper & _) & _)%init_Ok.
  assert (enveloped tol amps s e = []) as Henv.
  { apply list_nil_iff. intros a [Ha Hw]%elem_of_enveloped.
    eapply Forall_forall in Hproper; [|done].
    unfold span_within, span_proper in *.
    destruct (padded_span tol a) as [[b e']|]; [lia|done]. }
  rewrite decide_True by done.
  pose proof (Permutation_length Hperm) as Hlen.
  split; [|split].
  - intros Hnil. rewrite Hnil in Hperm.
    by apply Permutation_nil_r in Hperm as ->.
  - intros Hmany. destruct hits; [simpl in *; lia|].
    rewrite decide_False by done. by rewrite decide_True by lia.
  - intros Hne Hfew. exists hits. split; [|done].
    destruct hits as [|h hits].
    { apply Permutation_nil_l in Hperm. by rewrite Hperm in Hne. }
    rewrite decide_False by done. by rewrite decide_False by lia.
Qed.

Lemma match_degenerate_read_witness :
  AmpliconSet.match_ (build_set "scheme" ex_overlapping None) 198 198
    = Raise (Exception "").
Proof.
  apply (match_degenerate_read "scheme" ex_overlapping 5 None).
  - vm_compute. reflexivity.
  - lia.
  - vm_compute. lia.
Defined.

(** X4: Whenever [match] returns amplicons, they are the one or two distinct
    amplicons of the scheme whose padded span contains both endpoints, and
    the read envelops no padded span. *)
Theorem match_returns_containing name amps tol sn S (s e : Z) l :
  AmpliconSet.init name amps tol sn = Ok S →
  AmpliconSet.match_ S s e = Ok (Some l) →
  l ≡ₚ containing tol amps s e ∧ NoDup l ∧
  (List.length l = 1 ∨ List.length l = 2)%nat ∧
  (∀ a, a ∈ l → a ∈ pydict_values amps ∧
                 span_contains tol a s ∧ span_contains tol a e) ∧
  enveloped tol amps s e = [].
Proof.
  intros Hinit.
  destruct (match_outcome _ _ _ _ _ s e Hinit) as (hits & Hperm & ->).
  destruct (decide (enveloped tol amps s e = [])); [|done].
  destruct (decide (hits = [])) as [|Hne]; [done|].
  destruct (decide (2 < List.length hits)%nat); [done|].
  intros [= <-]. split; [done|]. split; [|split; [|split; [|done]]].
  - rewrite Hperm. apply containing_NoDup.
  - destruct hits as [|? [|? [|? ?]]]; simpl in *; [done|lia..].
  - intros a Ha. apply elem_of_containing. by rewrite <-Hperm.
Qed.

Lemma match_returns_containing_witness :
  [ex_A] ≡ₚ containing 5 ex_scheme 100 150 ∧ NoDup [ex_A] ∧
  (List.length [ex_A] = 1 ∨ List.length [ex_A] = 2)%nat ∧
  (∀ a, a ∈ [ex_A] → a ∈ pydict_values ex_scheme ∧
                      span_contains 5 a 100 ∧ span_contains 5 a 150) ∧
  enveloped 5 ex_scheme 100 150 = [].
Proof.
  apply (match_returns_containing "scheme" ex_scheme 5 None ex_set).
  - vm_compute. reflexivity.
  - vm_compute. reflexivity.
Defined.

(** X5: [match] is a no-match exactly when the read envelops a padded span or
    no padded span contains both endpoints, and it raises (the bare
    [Exception], nothing else) exactly when no span is enveloped and more
    than two amplicons contain both endpoints. *)
Theorem match_no_match_and_raise name amps tol sn S (s e : Z) :
  AmpliconSet.init name amps tol sn = Ok S →
  (AmpliconSet.match_ S s e = Ok None ↔
   enveloped tol amps s e ≠ [] ∨ containing tol amps s e = []) ∧
  (∀ x, AmpliconSet.match_ S s e = Raise x ↔
        x = Exception "" ∧ enveloped tol amps s e = [] ∧
        (2 < List.length (containing tol amps s e))%nat).
Proof.
  intros Hinit.
  destruct (match_outcome _ _ _ _ _ s e Hinit) as (hits & Hperm & ->).
  pose proof (Permutation_length Hperm) as Hlen.
  assert (hits = [] ↔ containing tol amps s e = []) as Hnil.
  { split; intros Hx; rewrite Hx in Hperm;
      [by apply Permutation_nil_l in Hperm|by apply Permutation_nil_r in Hperm]. }
  rewrite <-Hnil, <-Hlen.
  destruct (decide (enveloped tol amps s e = [])) as [Henv|Henv].
  - destruct (decide (hits = [])) as [Hh|Hh].
    + split; [naive_solver|]. intros x. split; [done|].
      intros (_ & _ & Hmany). rewrite Hh in Hmany. simpl in Hmany. lia.
    + destruct (decide (2 < List.length hits)%nat).
      * split; [naive_solver|]. intros x. split; [by intros [= <-]|].
        by intros (-> & _).
      * split; [naive_solver|]. intros x. split; [done|]. naive_solver.
  - split; [naive_solver|]. intros x. split; [done|]. naive_solver.
Qed.

Lemma match_no_match_and_raise_witness :
  (AmpliconSet.match_ ex_set 90 310 = Ok None ↔
   enveloped 5 ex_scheme 90 310 ≠ [] ∨ containing 5 ex_scheme 90 310 = []) ∧
  (∀ x, AmpliconSet.match_ ex_set 90 310 = Raise x ↔
        x = Exception "" ∧ enveloped 5 ex_scheme 90 310 = [] ∧
        (2 < List.length (containing 5 ex_scheme 90 310))%nat).
Proof.
  apply (match_no_match_and_raise "scheme" ex_scheme 5 None ex_set).
  vm_compute. reflexivity.
Defined.

(** ** AmpliconSet construction: when it succeeds and what it stores *)

(** X7: Construction succeeds exactly when every amplicon has a start and an
    end with a proper padded span and some amplicon has a primer. *)
Theorem init_succeeds_iff name amps tol sn :
  (∃ S, AmpliconSet.init name amps tol sn = Ok S) ↔
  Forall (span_proper tol) (pydict_values amps) ∧
  Exists has_primer (pydict_values amps).
Proof.
  split.
  - intros [S HS]. by eapply init_Ok_only_if.
  - intros [??]. by apply init_total.
Qed.

(** X8: The index holds the padded span of every amplicon, once for each
    distinct amplicon, and nothing else. *)
Theorem init_tree name amps tol sn S :
  AmpliconSet.init name amps tol sn = Ok S →
  NoDup (AmpliconSet.tree S) ∧
  (∀ iv, iv ∈ AmpliconSet.tree S ↔
     ∃ a s e, a ∈ pydict_values amps ∧
              Amplicon.start a = Some s ∧ Amplicon.end_ a = Some e ∧
              iv = IntervalTree.mkInterval (s - tol) (e + tol) a) ∧
  (∀ iv, iv ∈ AmpliconSet.tree S →
         IntervalTree.begin iv < IntervalTree.end_ iv) ∧
  List.length (AmpliconSet.tree S)
    = List.length (remove_dups (pydict_values amps)).
Proof.
  intros (_ & _ & (Hnd & Hproper & Hiff) & _)%init_Ok.
  assert (∀ a iv, interval_of tol a = Some iv ↔
            ∃ s e, Amplicon.start a = Some s ∧ Amplicon.end_ a = Some e ∧
                   iv = IntervalTree.mkInterval (s - tol) (e + tol) a) as Hof.
  { intros a iv. unfold interval_of, padded_span.
    destruct (Amplicon.start a) as [s|], (Amplicon.end_ a) as [e|];
      naive_solver. }
  split; [done|]. split; [|split].
  - intros iv. rewrite Hiff. setoid_rewrite Hof. naive_solver.
  - intros iv (a & Ha & Hiv)%Hiff.
    eapply Forall_forall in Hproper; [|done].
    apply interval_of_Some in Hiv as [_ Hspan].
    unfold span_proper in Hproper. by rewrite Hspan in Hproper.
  - rewrite <-(length_fmap IntervalTree.data). apply Permutation_length.
    apply NoDup_Permutation.
    + apply NoDup_fmap_2_strong; [|done].
      intros x y (ax & _ & Hx)%Hiff (ay & _ & Hy)%Hiff Hxy.
      pose proof (interval_of_Some _ _ _ Hx) as [<- _].
      pose proof (interval_of_Some _ _ _ Hy) as [<- _].
      rewrite Hxy in Hx. congruence.
    + apply NoDup_remove_dups.
    + intros a. rewrite elem_of_remove_dups, list_elem_of_fmap. split.
      * intros (iv & -> & (a0 & Ha & Hiv)%Hiff).
        by apply interval_of_Some in Hiv as [-> _].
      * intros Ha. eapply Forall_forall in Hproper; [|done].
        destruct (span_has_interval tol a) as [iv Hiv].
        { unfold span_proper in Hproper. by destruct (padded_span tol a). }
        exists iv. split; [by apply interval_of_Some in Hiv as [-> _]|].
        apply Hiff. eauto.
Qed.

Lemma init_tree_witness :
  List.length (AmpliconSet.tree ex_set)
    = List.length (remove_dups (pydict_values ex_scheme)).
Proof.
  apply (init_tree "scheme" ex_scheme 5 None ex_set).
  vm_compute. reflexivity.
Defined.

(** The value that a run of insertions leaves under a key: the one of the
    last insertion for that key. *)
Lemma fold_insert_last {K V X} `{Countable K} (fk : X → K) (fv : X → V)
    (l : list X) (m : gmap K V) (k : K) :
  foldl (λ m y, <[fk y := fv y]> m) m l !! k =
  match last (filter (λ y, fk y = k) l) with
  | Some y => Some (fv y)
  | None => m !! k
  end.
Proof.
  revert m. induction l as [|x l IH]; intros m; simpl; [done|].
  rewrite IH, filter_cons.
  destruct (decide (fk x = k)) as [Hk|Hk].
  - rewrite last_cons.
    destruct (last (filter (λ y, fk y = k) l)); [done|].
    by rewrite <-Hk, lookup_insert_eq.
  - destruct (last (filter (λ y, fk y = k) l)); [done|].
    by rewrite lookup_insert_ne.
Qed.

(** X9: The id table maps a shortname to the last amplicon, in the order of the
    collection, that carries it; amplicons that share a shortname with a
    later one are not reachable through the table. *)
Theorem amplicon_ids_last_wins name amps tol sn S (k : Z) :
  AmpliconSet.init name amps tol sn = Ok S →
  AmpliconSet.amplicon_ids S !! k
    = last (filter (λ a, Amplicon.shortname a = k) (pydict_values amps)).
Proof.
  intros (_ & _ & _ & Hids & _)%init_Ok. rewrite Hids.
  rewrite (fold_insert_last Amplicon.shortname id). rewrite lookup_empty.
  by destruct (last _).
Qed.

Lemma amplicon_ids_last_wins_witness :
  AmpliconSet.amplicon_ids ex_clash_set !! 0
    = last (filter (λ a, Amplicon.shortname a = 0) (pydict_values ex_clash)).
Proof.
  apply (amplicon_ids_last_wins "scheme" ex_clash 5 None).
  vm_compute. reflexivity.
Defined.

(** ** The sequence table: its keys and its entries *)

Lemma length_str_prefix (n : nat) (s : string) :
  (n ≤ String.length s)%nat → String.length (str_prefix n s) = n.
Proof.
  unfold str_prefix. revert s. induction n as [|n IH]; intros s Hn.
  - by destruct s.
  - destruct s as [|c s]; simpl in *; [lia|]. rewrite IH; [done|lia].
Qed.

Section pydict_keys.
Context {K V : Type} `{EqDecision K}.

Lemma pydict_set_key (k k' : K) (v v' : V) (d : pydict K V) :
  (k, v) ∈ d → ∃ v0, (k, v0) ∈ pydict_set k' v' d.
Proof.
  intros Hin. destruct (decide (k' = k)) as [->|Hne].
  - exists v'. apply pydict_set_here.
  - exists v. by apply pydict_set_keeps.
Qed.

Lemma pydict_fold_key (l : list (K * V)) (d : pydict K V) (k : K) :
  (∃ v, (k, v) ∈ l ∨ (k, v) ∈ d) →
  ∃ v', (k, v') ∈ foldl (λ d kv, pydict_set kv.1 kv.2 d) d l.
Proof.
  revert d. induction l as [|[k1 v1] l IH]; intros d [v Hv]; simpl.
  - destruct Hv as [?%elem_of_nil|?]; [done|eauto].
  - apply IH. destruct Hv as [[[= <- <-]|?]%elem_of_cons|Hd].
    + exists v. right. apply pydict_set_here.
    + exists v. by left.
    + destruct (pydict_set_key k k1 v v1 d Hd) as [v0 ?]. exists v0. by right.
Qed.
End pydict_keys.

(** X10: Every key of the sequence table has exactly [min_primer_length]
    characters and is the truncated sequence of a primer of the amplicon it
    maps to; the truncated sequence of every primer is a key. *)
Theorem seqs_entries name amps tol sn S :
  AmpliconSet.init name amps tol sn = Ok S →
  (∀ k a, AmpliconSet.seqs S !! k = Some a →
     String.length k = AmpliconSet.min_primer_length S ∧
     a ∈ pydict_values amps ∧
     ∃ p, p ∈ primers_of a ∧
          k = str_prefix (AmpliconSet.min_primer_length S) (Primer.seq p)) ∧
  (∀ a p, a ∈ pydict_values amps → p ∈ primers_of a →
     is_Some (AmpliconSet.seqs S
                !! str_prefix (AmpliconSet.min_primer_length S) (Primer.seq p))).
Proof.
  intros (_ & _ & _ & _ & Hseqs & Hmin)%init_Ok.
  apply py_min_Ok in Hmin as [_ Hle].
  set (m := AmpliconSet.min_primer_length S) in *.
  set (sequences :=
         foldl (λ (d : pydict string Amplicon.t) kv, pydict_set kv.1 kv.2 d)
               [] (owners amps)) in *.
  assert (∀ k, AmpliconSet.seqs S !! k =
            match last (filter (λ kv, str_prefix m kv.1 = k) sequences) with
            | Some kv => Some kv.2
            | None => None
            end) as Hlookup.
  { intros k. rewrite Hseqs.
    rewrite (fold_insert_last (λ kv, str_prefix m kv.1) snd).
    by rewrite lookup_empty. }
  split.
  - intros k a. rewrite Hlookup.
    destruct (last _) as [[k0 a0]|] eqn:Hlast; [|done].
    intros [= <-]. simpl.
    apply last_Some_elem_of, list_elem_of_filter in Hlast as [Hk Hin].
    simpl in Hk. subst k.
    apply pydict_fold_subset in Hin as [Hin|?%elem_of_nil]; [|done].
    apply elem_of_owners in Hin as (Ha & p & Hp & ->).
    split; [|split; [done|by exists p]].
    apply length_str_prefix, Hle, elem_of_list_to_set.
    apply (list_elem_of_fmap_2 Primer.len).
    unfold all_primers. apply list_elem_of_bind. eauto.
  - intros a p Ha Hp. rewrite Hlookup.
    destruct (pydict_fold_key (owners amps) [] (Primer.seq p)) as [v' Hv'].
    { exists a. left. apply elem_of_owners. eauto. }
    fold sequences in Hv'.
    assert ((Primer.seq p, v')
              ∈ filter (λ kv, str_prefix m kv.1 = str_prefix m (Primer.seq p))
                       sequences) as Hin
      by (by apply list_elem_of_filter).
    destruct (last _) as [kv|] eqn:Hlast; [done|].
    apply last_None in Hlast. rewrite Hlast in Hin. by apply elem_of_nil in Hin.
Qed.

Lemma seqs_entries_witness :
  is_Some (AmpliconSet.seqs ex_set !! str_prefix 10 "TTGACCATGG").
Proof.
  refine (proj2 (seqs_entries "scheme" ex_scheme 5 None ex_set _)
            ex_A (Primer.mk "A_RIGHT" "TTGACCATGG" false false 190) _ _).
  - vm_compute. reflexivity.
  - left.
  - vm_compute. right. left.
Defined.

(** ** The derived shortname *)

Lemma chr_inj (x y : Z) :
  0 ≤ x < 256 → 0 ≤ y < 256 → chr x = chr y → x = y.
Proof.
  unfold chr. intros Hx Hy [= Heq].
  apply (f_equal nat_of_ascii) in Heq.
  rewrite !nat_ascii_embedding in Heq by lia. lia.
Qed.

(** X11: Two names derive the same shortname exactly when the sums of their
    character codes agree modulo 54, whatever the order of the
    characters. *)
Theorem derived_shortname_collision (name1 name2 : string) :
  AmpliconSet.derived_shortname name1 = AmpliconSet.derived_shortname name2 ↔
  sum_ord name1 `mod` 54 = sum_ord name2 `mod` 54.
Proof.
  unfold AmpliconSet.derived_shortname.
  set (a := ord "A").
  pose proof (Z.mod_pos_bound (sum_ord name1 - a) 54).
  pose proof (Z.mod_pos_bound (sum_ord name2 - a) 54).
  split.
  - intros Heq%chr_inj; [|lia..].
    assert ((sum_ord name1 - a) `mod` 54 = (sum_ord name2 - a) `mod` 54) as Hm by lia.
    apply (f_equal (λ z, (z + a) `mod` 54)) in Hm. simpl in Hm.
    rewrite !Zplus_mod_idemp_l in Hm.
    by replace (sum_ord name1 - a + a) with (sum_ord name1) in Hm by lia;
       replace (sum_ord name2 - a + a) with (sum_ord name2) in Hm by lia.
  - intros Hm. f_equal. f_equal.
    rewrite <-(Zminus_mod_idemp_l (sum_ord name1)), Hm.
    by rewrite Zminus_mod_idemp_l.
Qed.

(** X12: A set built without a shortname, or with the empty string for one, has
    the shortname derived from its name: a single character with a code
    from 65 to 118. *)
Theorem init_derived_shortname name amps tol sn S :
  AmpliconSet.init name amps tol sn = Ok S →
  AmpliconSet.not_ sn = true →
  AmpliconSet.get_shortname S = Ok (AmpliconSet.derived_shortname name) ∧
  ∃ c : ascii, AmpliconSet.derived_shortname name = String c "" ∧
               65 ≤ ord c ≤ 118.
Proof.
  intros (_ & Hsn & _)%init_Ok Hnot. rewrite Hnot in Hsn.
  split; [|apply derived_shortname_alphabet].
  unfold AmpliconSet.get_shortname. by rewrite Hsn.
Qed.

Lemma init_derived_shortname_witness :
  AmpliconSet.get_shortname ex_set = Ok (AmpliconSet.derived_shortname "scheme") ∧
  ∃ c : ascii, AmpliconSet.derived_shortname "scheme" = String c "" ∧
               65 ≤ ord c ≤ 118.
Proof.
  apply (init_derived_shortname "scheme" ex_scheme 5 None ex_set).
  - vm_compute. reflexivity.
  - reflexivity.
Defined.

(** ** Tags of several sets *)

Lemma foldM_app {A B} (body : A → B → result A) (xs ys : list B) (acc : A) :
  foldM body (xs ++ ys) acc = bind (foldM body xs acc) (foldM body ys).
Proof.
  revert acc. induction xs as [|x xs IH]; intros acc; simpl; [done|].
  destruct (body acc x) as [acc'|e]; simpl; [apply IH|done].
Qed.

Section many_sets.
Context {R : Type} `{ReadAPI R}.

Lemma set_tags_eval (sets : list AmpliconSet.t) (read : R)
    (matches : gmap string (list Amplicon.t)) :
  set_tags sets read matches =
  if decide (Forall (λ S, is_Some (AmpliconSet.shortname S)) sets)
  then Ok (read_set_tags (written matches sets) read)
  else Raise AttributeError.
Proof.
  unfold set_tags.
  set (acc0 := ([], ∅) : list tag * gset string).
  change (written matches sets) with (acc0.1 ++ written matches sets).
  clearbody acc0. revert acc0.
  induction sets as [|S sets IH]; intros [tags shortnames].
  - simpl. by rewrite app_nil_r.
  - cbn [foldM]. unfold AmpliconSet.get_shortname at 1.
    destruct (AmpliconSet.shortname S) as [c|] eqn:Hc; cbn [bind].
    + assert (written matches (S :: sets)
              = tags_of_set matches S c ++ written matches sets) as ->.
      { unfold written. cbn [mbind list_bind]. by rewrite Hc. }
      assert (Forall (λ S, is_Some (AmpliconSet.shortname S)) (S :: sets)
              ↔ Forall (λ S, is_Some (AmpliconSet.shortname S)) sets) as Hall.
      { rewrite Forall_cons. rewrite Hc. naive_solver. }
      unfold tags_of_set.
      destruct (matches !! AmpliconSet.name S) as [ms|]; cbn [bind];
        rewrite IH; cbn [fst];
        (destruct (decide (Forall _ sets));
           [rewrite decide_True by (by apply Hall)
           |rewrite decide_False by (by rewrite Hall)]); try done.
      by rewrite foldl_snoc_fmap, <-app_assoc.
    + rewrite decide_False; [done|].
      intros [[? Hx] _]%Forall_cons. congruence.
Qed.

(** X13: [set_tags] fails, with [AttributeError], exactly when one of the sets
    has no shortname; otherwise it writes a single batch: for each set in
    turn, one tag per amplicon listed under the set's name, and nothing for
    a set whose name is not a key of [matches]. *)
Theorem set_tags_outcome (sets : list AmpliconSet.t) (read : R)
    (matches : gmap string (list Amplicon.t)) :
  (Forall (λ S, is_Some (AmpliconSet.shortname S)) sets ∧
   set_tags sets read matches = Ok (read_set_tags (written matches sets) read))
  ∨ (Exists (λ S, AmpliconSet.shortname S = None) sets ∧
     set_tags sets read matches = Raise AttributeError).
Proof.
  rewrite set_tags_eval.
  destruct (decide (Forall (λ S, is_Some (AmpliconSet.shortname S)) sets))
    as [Hall|Hnot]; [by left|right].
  split; [|done].
  apply not_Forall_Exists in Hnot; [|apply _].
  eapply Exists_impl; [done|]. intros S HS. simpl in HS.
  destruct (AmpliconSet.shortname S); [|done]. by destruct HS.
Qed.

Lemma written_app (matches : gmap string (list Amplicon.t))
    (l1 l2 : list AmpliconSet.t) :
  written matches (l1 ++ l2) = written matches l1 ++ written matches l2.
Proof. unfold written. apply bind_app. Qed.

Lemma written_cons (matches : gmap string (list Amplicon.t))
    (S : AmpliconSet.t) (c : string) (l : list AmpliconSet.t) :
  AmpliconSet.shortname S = Some c →
  written matches (S :: l) = tags_of_set matches S c ++ written matches l.
Proof. intros Hc. unfold written. cbn [mbind list_bind]. by rewrite Hc. Qed.

(** The tags of sets with another shortname are passed over. *)
Lemma get_tags_skip (S : AmpliconSet.t) (c : ascii)
    (matches : gmap string (list Amplicon.t)) (l : list AmpliconSet.t)
    (acc : list Amplicon.t)
    (body := λ (matches : list Amplicon.t) item,
        let* (tag, amplicon_id) := unpack2 item in
        let* c0 := str_index tag 0 in
        let* selected :=
          (if bool_decide (c0 = "Z") then
             let* c1 := str_index tag 1 in
             let* shortname := AmpliconSet.get_shortname S in
             Ok (bool_decide (c1 = shortname))
           else Ok false) in
        if selected : bool then
          let* amplicon := ids_getitem (AmpliconSet.amplicon_ids S) amplicon_id in
          Ok (matches ++ [amplicon])
        else Ok matches) :
  AmpliconSet.shortname S = Some (String c "") →
  Forall (λ S', ∃ c' : ascii,
            AmpliconSet.shortname S' = Some (String c' "") ∧ c' ≠ c) l →
  foldM body (as_pair <$> written matches l) acc = Ok acc.
Proof.
  intros Hc Hall. revert acc.
  induction Hall as [|S' l (c' & Hc' & Hne) _ IH]; intros acc; [done|].
  rewrite (written_cons _ _ _ _ Hc'), fmap_app, foldM_app.
  assert (foldM body (as_pair <$> tags_of_set matches S' (String c' "")) acc
          = Ok acc) as ->; [|apply IH].
  unfold tags_of_set. destruct (matches !! AmpliconSet.name S') as [ms|]; [|done].
  induction ms as [|a ms IHms]; [done|]. simpl.
  unfold body at 1, AmpliconSet.get_shortname. simpl. rewrite Hc. simpl.
  rewrite bool_decide_eq_false_2 by congruence. apply IHms.
Qed.

(** X14: With several sets of pairwise distinct single-character shortnames, on
    a read that yields the pairs of the tags last written, [get_tags] for
    one of the sets returns the amplicons that [set_tags] was given under
    the name of that set (none when the name is not a key of [matches]),
    provided the id table of the set resolves their shortnames. *)
Theorem tags_round_trip_many (sets : list AmpliconSet.t) (read : R)
    (matches : gmap string (list Amplicon.t)) (S : AmpliconSet.t) :
  (∀ ts r, read_get_tags (read_set_tags ts r) = as_pair <$> ts) →
  Forall (λ S', ∃ c : ascii, AmpliconSet.shortname S' = Some (String c ""))
         sets →
  NoDup (AmpliconSet.shortname <$> sets) →
  S ∈ sets →
  (∀ a, a ∈ default [] (matches !! AmpliconSet.name S) →
        AmpliconSet.amplicon_ids S !! Amplicon.shortname a = Some a) →
  ∃ read', set_tags sets read matches = Ok read' ∧
           get_tags S read' = Ok (default [] (matches !! AmpliconSet.name S)).
Proof.
  intros Hread Hall Hnd HS Hids.
  rewrite set_tags_eval, decide_True
    by (eapply Forall_impl; [done|]; by intros ? [? ->]).
  eexists. split; [done|].
  unfold get_tags. rewrite Hread.
  apply list_elem_of_split in HS as (l1 & l2 & ->).
  pose proof Hall as (Hall1 & [[c Hc] Hall2]%Forall_cons)%Forall_app.
  rewrite fmap_app, fmap_cons in Hnd.
  apply NoDup_app in Hnd as (_ & Hdisj & [Hnot2 _]%NoDup_cons).
  assert (∀ l, Forall (λ S', ∃ c : ascii,
                         AmpliconSet.shortname S' = Some (String c "")) l →
               AmpliconSet.shortname S ∉ AmpliconSet.shortname <$> l →
               Forall (λ S', ∃ c' : ascii,
                         AmpliconSet.shortname S' = Some (String c' "") ∧ c' ≠ c) l)
    as Hother.
  { intros l Hl Hnot. apply Forall_forall. intros S' HS'.
    eapply Forall_forall in Hl as [c' Hc']; [|done].
    exists c'. split; [done|]. intros ->. apply Hnot.
    rewrite Hc, <-Hc'. by apply list_elem_of_fmap_2. }
  rewrite written_app, (written_cons _ _ _ _ Hc), !fmap_app, !foldM_app.
  rewrite (get_tags_skip S c); [|done|]. 2:{
    apply Hother; [done|]. intros Hin. apply (Hdisj _ Hin). left. }
  cbn [bind]. rewrite foldM_app. unfold tags_of_set.
  destruct (matches !! AmpliconSet.name S) as [M|];
    cbn [default from_option id] in *.
  - rewrite (get_tags_loop S c M []) by done. cbn [bind app].
    apply (get_tags_skip S c); [done|].
    apply Hother; [done|]. intros Hin. by apply Hnot2.
  - cbn [fmap list_fmap foldM bind].
    apply (get_tags_skip S c); [done|].
    apply Hother; [done|]. intros Hin. by apply Hnot2.
Qed.
End many_sets.

Lemma tags_round_trip_many_witness :
  ∃ read',
    set_tags [ex_set; build_set "A" ex_overlapping None] (PairRead [])
             {[ "scheme" := [ex_B]; "A" := [ex_C; ex_A] ]} = Ok read' ∧
    get_tags (build_set "A" ex_overlapping None) read'
      = Ok (default [] (({[ "scheme" := [ex_B]; "A" := [ex_C; ex_A] ]}
                          : gmap string (list Amplicon.t))
                        !! AmpliconSet.name (build_set "A" ex_overlapping None))).
Proof.
  apply (tags_round_trip_many [ex_set; build_set "A" ex_overlapping None]).
  - intros ts r. reflexivity.
  - repeat constructor; eexists; vm_compute; reflexivity.
  - vm_compute. apply NoDup_cons. split; [set_solver|apply NoDup_singleton].
  - right. left.
  - intros a Ha. change (a ∈ [ex_C; ex_A]) in Ha.
    apply elem_of_cons in Ha as [->|Ha]; [vm_compute; reflexivity|].
    apply list_elem_of_singleton in Ha as ->. vm_compute. reflexivity.
Defined.

(** ** Scheme files *)

Section pydict_positions.
Context {K V : Type} `{EqDecision K}.
Implicit Types (d : pydict K V).

Lemma pydict_set_fresh (k : K) (v : V) d :
  k ∉ d.*1 → pydict_set k v d = d ++ [(k, v)].
Proof.
  induction d as [|[k' v'] d IH]; simpl; [done|].
  intros [Hne Hnot]%not_elem_of_cons.
  rewrite decide_False by done. by rewrite IH.
Qed.

Lemma pydict_get_fresh (k : K) (v : V) d :
  k ∉ d.*1 → pydict_get k (d ++ [(k, v)]) = Some v.
Proof.
  induction d as [|[k' v'] d IH]; simpl.
  - intros _. by rewrite decide_True.
  - intros [Hne Hnot]%not_elem_of_cons.
    rewrite decide_False by done. by apply IH.
Qed.

Lemma pydict_set_last (k : K) (v v' : V) d :
  k ∉ d.*1 → pydict_set k v' (d ++ [(k, v)]) = d ++ [(k, v')].
Proof.
  induction d as [|[k0 v0] d IH]; simpl.
  - intros _. by rewrite decide_True.
  - intros [Hne Hnot]%not_elem_of_cons.
    rewrite decide_False by done. by rewrite IH.
Qed.

Lemma pydict_get_lookup (i : nat) (k : K) (v : V) d :
  NoDup d.*1 → d !! i = Some (k, v) → pydict_get k d = Some v.
Proof.
  revert i. induction d as [|[k' v'] d IH]; intros i; simpl; [done|].
  intros [Hnot Hnd]%NoDup_cons. destruct i as [|i]; simpl.
  - intros [= -> ->]. by rewrite decide_True.
  - intros Hi. rewrite decide_False; [by eapply IH|].
    intros ->. apply Hnot. apply list_elem_of_fmap. exists (k, v).
    split; [done|]. by eapply list_elem_of_lookup_2.
Qed.

Lemma pydict_set_lookup (i : nat) (k : K) (v v' : V) d :
  NoDup d.*1 → d !! i = Some (k, v) → pydict_set k v' d = <[i := (k, v')]> d.
Proof.
  revert i. induction d as [|[k0 v0] d IH]; intros i; simpl; [done|].
  intros [Hnot Hnd]%NoDup_cons. destruct i as [|i]; simpl.
  - intros [= -> ->]. by rewrite decide_True.
  - intros Hi. rewrite decide_False; [by erewrite IH|].
    intros ->. apply Hnot. apply list_elem_of_fmap. exists (k, v).
    split; [done|]. by eapply list_elem_of_lookup_2.
Qed.
End pydict_positions.

Lemma first_seen_snoc (l : list string) (x : string) :
  first_seen (l ++ [x]) =
  if decide (x ∈ first_seen l) then first_seen l else first_seen l ++ [x].
Proof. unfold first_seen. by rewrite foldl_app. Qed.

Lemma first_seen_spec (l : list string) :
  NoDup (first_seen l) ∧ ∀ x, x ∈ first_seen l ↔ x ∈ l.
Proof.
  induction l as [|y l [Hnd Hiff]] using rev_ind.
  - split; [apply NoDup_nil_2|done].
  - rewrite first_seen_snoc. destruct (decide (y ∈ first_seen l)) as [Hy|Hy].
    + split; [done|]. intros x. rewrite elem_of_app, list_elem_of_singleton.
      rewrite Hiff. apply Hiff in Hy. naive_solver.
    + split.
      * apply NoDup_app. split; [done|]. split; [|apply NoDup_singleton].
        by intros x ? ->%list_elem_of_singleton.
      * intros x. rewrite !elem_of_app, Hiff. done.
Qed.

Lemma primers_for_snoc (k k' : string) (p : Primer.t) es :
  primers_for k' (es ++ [(k, p)]) =
  primers_for k' es ++ (if decide (k = k') then [p] else []).
Proof.
  unfold primers_for. rewrite filter_app, fmap_app. f_equal.
  rewrite filter_cons. simpl. by destruct (decide (k = k')).
Qed.

Lemma primers_for_absent (k : string) es : k ∉ es.*1 → primers_for k es = [].
Proof.
  intros Hk. unfold primers_for.
  assert (filter (λ e : string * Primer.t, e.1 = k) es = []) as ->; [|done].
  apply list_nil_iff. intros [k' p] [Heq Hin]%list_elem_of_filter.
  simpl in Heq. subst k'. apply Hk. apply list_elem_of_fmap. by exists (k, p).
Qed.

Lemma insert_same_key {A B} (l : list (A * B)) (i : nat) (k : A) (v v' : B) :
  l !! i = Some (k, v) → (<[i := (k, v')]> l).*1 = l.*1.
Proof.
  revert i. induction l as [|x l IH]; intros [|i]; simpl; try done.
  - by intros [= ->].
  - intros Hi. f_equal. by apply IH.
Qed.

Lemma grouped_nil : grouped [] [] 0.
Proof. by repeat split. Qed.

(** An amplicon reached from a fresh one accepts any further primer. *)
Lemma add_after_add_all (name : string) (shortname : Z)
    (ps : list Primer.t) (p : Primer.t) (a : Amplicon.t) :
  Amplicon.add_all ps (Amplicon.new name shortname) = Ok a →
  ∃ a', Amplicon.add p a = Ok a' ∧
        Amplicon.add_all (ps ++ [p]) (Amplicon.new name shortname) = Ok a'.
Proof.
  intros Ha.
  destruct (add_all_regions ps _ (new_coherent name shortname))
    as (a0 & Ha0 & Hco & _).
  assert (a0 = a) as -> by congruence.
  destruct (add_coherent p a Hco) as (a' & Hadd & _).
  exists a'. split; [done|].
  unfold Amplicon.add_all in *. rewrite foldM_app, Ha. simpl. by rewrite Hadd.
Qed.

Lemma row_entry_Ok (B : builtins) d k p :
  row_entry B d = Ok (k, p) →
  row_getitem d "Amplicon_name" = Ok k ∧ row_primer B d = Ok p.
Proof.
  unfold row_entry.
  intros (k' & Hk & (p' & Hp & [= <- <-])%bind_Ok)%bind_Ok. done.
Qed.

Lemma row_entry_Raise (B : builtins) d x st :
  row_entry B d = Raise x → from_tsv_row B st d = Raise x.
Proof.
  unfold row_entry, from_tsv_row.
  destruct (row_getitem d "Amplicon_name") as [k|]; cbn [bind];
    [|by intros [= ->]].
  destruct (row_primer B d) as [p|]; cbn [bind]; [done|by intros [= ->]].
Qed.

(** One row keeps the locals grouped. *)
Lemma from_tsv_row_grouped (B : builtins) es amps n d k p :
  grouped es amps n → row_entry B d = Ok (k, p) →
  ∃ amps' n', from_tsv_row B (amps, n) d = Ok (amps', n') ∧
              grouped (es ++ [(k, p)]) amps' n'.
Proof.
  intros (Hkeys & Hn & Hbuilt) [Hk Hp]%row_entry_Ok.
  unfold pydict in *.
  destruct (first_seen_spec es.*1) as [Hnd Hseen].
  assert ((es ++ [(k, p)]).*1 = es.*1 ++ [k]) as Hnames by (by rewrite fmap_app).
  unfold from_tsv_row. rewrite Hk. cbn [bind fst snd].
  case_bool_decide as Hnew.
  - rewrite Hp. cbn [bind fst snd].
    rewrite (pydict_set_fresh _ _ _ Hnew).
    unfold pydict_getitem. rewrite (pydict_get_fresh _ _ _ Hnew). cbn [bind].
    destruct (add_after_add_all k n [] p (Amplicon.new k n) eq_refl)
      as (a' & Hadd & Hall).
    rewrite Hadd. cbn [bind].
    rewrite (pydict_set_last _ _ _ _ Hnew). unfold pydict.
    eexists _, _. split; [done|]. split; [|split].
    + rewrite Hnames, first_seen_snoc.
      rewrite decide_False by (by rewrite <-Hkeys).
      by rewrite fmap_app, Hkeys.
    + rewrite length_app. simpl. lia.
    + intros i k' a Hi. unfold pydict in *. rewrite primers_for_snoc.
      apply lookup_app_Some in Hi as [Hi|[Hlen Hi]].
      * assert (k' ∈ amps.*1) as Hin.
        { apply list_elem_of_fmap. exists (k', a).
          split; [done|]. by eapply list_elem_of_lookup_2. }
        rewrite decide_False by (intros ->; done).
        rewrite app_nil_r. by apply Hbuilt.
      * apply list_lookup_singleton_Some in Hi as [Hi [= <- <-]].
        rewrite decide_True by done.
        rewrite primers_for_absent by (by rewrite <-Hseen, <-Hkeys).
        assert (i = List.length amps) as -> by lia.
        by rewrite <-Hn.
  - rewrite Hp. cbn [bind fst snd].
    assert (NoDup amps.*1) as Hnd' by (by rewrite Hkeys).
    pose proof Hnew as ([k0 a] & Hk0 & Hin)%list_elem_of_fmap. simpl in Hk0.
    subst k0. apply list_elem_of_lookup_1 in Hin as [i Hi].
    unfold pydict_getitem. rewrite (pydict_get_lookup i k a) by done.
    cbn [bind].
    destruct (add_after_add_all k (Z.of_nat i) _ p a (Hbuilt _ _ _ Hi))
      as (a' & Hadd & Hall).
    rewrite Hadd. cbn [bind].
    rewrite (pydict_set_lookup i k a a') by done. unfold pydict.
    eexists _, _. split; [done|]. split; [|split].
    + rewrite Hnames, first_seen_snoc.
      rewrite decide_True by (by rewrite <-Hkeys).
      by rewrite (insert_same_key _ _ _ a).
    + by rewrite length_insert.
    + intros j k' a0 Hj. unfold pydict in *. rewrite primers_for_snoc.
      destruct (decide (i = j)) as [<-|Hij].
      * rewrite list_lookup_insert_eq in Hj by (by eapply lookup_lt_Some).
        injection Hj as <- <-. by rewrite decide_True.
      * rewrite list_lookup_insert_ne in Hj by done.
        rewrite decide_False, app_nil_r; [by apply Hbuilt|].
        intros ->. apply Hij.
        eapply (NoDup_lookup amps.*1); [done| |];
          rewrite list_lookup_fmap; [by rewrite Hi|by rewrite Hj].
Qed.

Lemma mapM_Ok_cons {A B} (f : A → result B) x l ys :
  mapM f (x :: l) = Ok ys →
  ∃ y ys', f x = Ok y ∧ mapM f l = Ok ys' ∧ ys = y :: ys'.
Proof.
  simpl. intros (y & Hy & (ys' & Hys & [= <-])%bind_Ok)%bind_Ok. eauto.
Qed.

(** The loop over the rows either stops at the first row that cannot be
    read, with its exception, or leaves the locals grouped. *)
Lemma from_tsv_rows_spec (B : builtins) rows es0 amps n :
  grouped es0 amps n →
  match mapM (row_entry B) rows with
  | Raise x => foldM (from_tsv_row B) rows (amps, n) = Raise x
  | Ok es =>
      ∃ amps' n', foldM (from_tsv_row B) rows (amps, n) = Ok (amps', n') ∧
                  grouped (es0 ++ es) amps' n'
  end.
Proof.
  revert es0 amps n. induction rows as [|d rows IH]; intros es0 amps n Hg.
  - simpl. exists amps, n. by rewrite app_nil_r.
  - cbn [mapM foldM].
    destruct (row_entry B d) as [[k p]|x] eqn:Hd; cbn [bind].
    + destruct (from_tsv_row_grouped B _ _ _ _ _ _ Hg Hd)
        as (amps1 & n1 & -> & Hg1). cbn [bind].
      specialize (IH _ _ _ Hg1).
      destruct (mapM (row_entry B) rows) as [es|x]; cbn [bind]; [|done].
      destruct IH as (amps' & n' & -> & Hg').
      exists amps', n'. by rewrite <-app_assoc in Hg'.
    + by rewrite (row_entry_Raise B d x).
Qed.

Lemma init_fields name amps tol sn S :
  AmpliconSet.init name amps tol sn = Ok S →
  AmpliconSet.name S = name ∧ AmpliconSet.amplicons S = amps.
Proof.
  unfold AmpliconSet.init.
  by intros (st & _ & (m & _ & [= <-])%bind_Ok)%bind_Ok.
Qed.

(** The exceptions of construction are [TypeError] and [ValueError]. *)
Lemma init_raises name amps tol sn x :
  AmpliconSet.init name amps tol sn = Raise x → x = TypeError ∨ x = ValueError.
Proof.
  unfold AmpliconSet.init.
  assert (∀ st, foldM (AmpliconSet.index_amplicon tol) amps st = Raise x →
                x = TypeError ∨ x = ValueError) as Hloop.
  { induction amps as [|[k a] amps IH]; intros st; simpl; [done|].
    destruct (AmpliconSet.index_amplicon tol st (k, a)) as [st1|y] eqn:Hstep;
      cbn [bind]; [by apply IH|].
    intros [= ->]. revert Hstep. unfold AmpliconSet.index_amplicon. simpl.
    destruct (Amplicon.start a); cbn [as_int bind]; [|intros [= <-]; by left].
    destruct (Amplicon.end_ a); cbn [as_int bind]; [|intros [= <-]; by left].
    unfold IntervalTree.setitem.
    repeat case_bool_decide; cbn [bind]; try done.
    destruct (IntervalTree.is_null _); cbn [bind]; [|done].
    intros [= <-]. by right. }
  destruct (foldM (AmpliconSet.index_amplicon tol) amps _) as [st|y] eqn:Hst;
    cbn [bind]; [|intros [= <-]; by eapply Hloop].
  unfold py_min. destruct (elements _); cbn [bind]; [|done].
  intros [= <-]. by right.
Qed.

Lemma row_entry_raises (B : builtins) d x :
  row_entry B d = Raise x → x = KeyError ∨ x = ValueError.
Proof.
  unfold row_entry, row_primer, row_getitem.
  repeat (match goal with
          | |- context [match ?o with Some _ => _ | None => _ end] =>
              destruct o; cbn [bind]
          end);
    intros [= <-]; auto.
Qed.

Lemma mapM_raises {A B} (f : A → result B) (l : list A) (x : exn) :
  mapM f l = Raise x → ∃ a, a ∈ l ∧ f a = Raise x.
Proof.
  induction l as [|a l IH]; simpl; [done|].
  destruct (f a) as [y|e] eqn:Ha; cbn [bind].
  - destruct (mapM f l) as [ys|e]; cbn [bind]; [done|].
    intros [= ->]. destruct IH as (a' & ? & ?); [done|].
    exists a'. split; [by right|done].
  - intros [= ->]. exists a. split; [left|done].
Qed.

(** The outcome of [from_tsv] on a file with a complete header. *)
Lemma from_tsv_complete (B : builtins) fn file cols name tol sn :
  fieldnames file = Some cols → missing_cols cols = [] →
  match mapM (row_entry B) (rows file) with
  | Raise x => from_tsv B fn file name tol sn = Raise x
  | Ok es =>
      ∃ amps n,
        grouped es amps n ∧
        from_tsv B fn file name tol sn =
        AmpliconSet.init
          (match name with
           | Some s => if AmpliconSet.not_ name then fn else s
           | None => fn
           end) amps (default 5 tol) sn
  end.
Proof.
  intros Hcols Hmissing. unfold from_tsv. rewrite Hcols. cbn [bind].
  rewrite Hmissing. rewrite bool_decide_eq_false_2 by (simpl; lia).
  pose proof (from_tsv_rows_spec B (rows file) [] [] 0 grouped_nil) as Hrows.
  destruct (mapM (row_entry B) (rows file)) as [es|x].
  - destruct Hrows as (amps & n & Hr & Hg).
    exists amps, n. split; [done|]. unfold pydict in *. by rewrite Hr.
  - unfold pydict in *. by rewrite Hrows.
Qed.

Lemma from_tsv_Ok (B : builtins) fn file name tol sn S :
  from_tsv B fn file name tol sn = Ok S →
  ∃ cols es amps n,
    fieldnames file = Some cols ∧ missing_cols cols = [] ∧
    mapM (row_entry B) (rows file) = Ok es ∧ grouped es amps n ∧
    AmpliconSet.init
      (match name with
       | Some s => if AmpliconSet.not_ name then fn else s
       | None => fn
       end) amps (default 5 tol) sn = Ok S.
Proof.
  intros HS.
  destruct (fieldnames file) as [cols|] eqn:Hcols;
    [|by unfold from_tsv in HS; rewrite Hcols in HS].
  destruct (decide (missing_cols cols = [])) as [Hm|Hm].
  - pose proof (from_tsv_complete B fn file cols name tol sn Hcols Hm) as Hc.
    destruct (mapM (row_entry B) (rows file)) as [es|x]; [|congruence].
    destruct Hc as (amps & n & Hg & Heq). rewrite Heq in HS.
    by exists cols, es, amps, n.
  - unfold from_tsv in HS. rewrite Hcols in HS. cbn [bind] in HS.
    rewrite bool_decide_eq_true_2 in HS; [done|].
    destruct (missing_cols cols); [done|simpl; lia].
Qed.



(** X16: In a set read from a scheme file the amplicons are numbered 0, 1, 2, ...
    in the order of the collection and carry the name they are keyed by, so
    their shortnames are pairwise distinct and the id table resolves the
    shortname of every amplicon to that amplicon. *)
Theorem from_tsv_ids (B : builtins) fn file name tol sn S :
  from_tsv B fn file name tol sn = Ok S →
  (∀ (i : nat) k a, AmpliconSet.amplicons S !! i = Some (k, a) →
     Amplicon.shortname a = Z.of_nat i ∧ Amplicon.name a = k) ∧
  NoDup (Amplicon.shortname <$> pydict_values (AmpliconSet.amplicons S)) ∧
  ∀ a, a ∈ pydict_values (AmpliconSet.amplicons S) →
       AmpliconSet.amplicon_ids S !! Amplicon.shortname a = Some a.
Proof.
  intros (cols & es & amps & n & _ & _ & _ & (_ & _ & Hbuilt) & Hinit)%from_tsv_Ok.
  pose proof Hinit as [_ ->]%init_fields.
  assert (∀ (i : nat) k a, amps !! i = Some (k, a) →
            Amplicon.shortname a = Z.of_nat i ∧ Amplicon.name a = k) as Hnum.
  { intros i k a Hi. by apply Hbuilt, add_all_fields in Hi as (Hsn & Hnm & _). }
  assert (NoDup (Amplicon.shortname <$> pydict_values amps)) as Hnd.
  { apply NoDup_alt. intros i j z. unfold pydict_values, pydict in *.
    rewrite !list_lookup_fmap.
    destruct (amps !! i) as [[ki ai]|] eqn:Hi; simpl; [|done].
    destruct (amps !! j) as [[kj aj]|] eqn:Hj; simpl; [|done].
    apply Hnum in Hi as [Hi _], Hj as [Hj _].
    intros [= <-] [= Heq]. lia. }
  split; [done|]. split; [done|].
  intros a Ha. apply init_Ok in Hinit as (_ & _ & _ & -> & _).
  by apply ids_lookup.
Qed.

Lemma from_tsv_ids_witness :
  (∀ (i : nat) k a, AmpliconSet.amplicons ex_set !! i = Some (k, a) →
     Amplicon.shortname a = Z.of_nat i ∧ Amplicon.name a = k) ∧
  NoDup (Amplicon.shortname <$> pydict_values (AmpliconSet.amplicons ex_set)) ∧
  ∀ a, a ∈ pydict_values (AmpliconSet.amplicons ex_set) →
       AmpliconSet.amplicon_ids ex_set !! Amplicon.shortname a = Some a.
Proof.
  apply (from_tsv_ids ex_builtins "scheme" ex_tsv None None None ex_set).
  vm_compute. reflexivity.
Defined.

(** X17: [from_tsv] raises the generic [Exception] exactly for a header that
    lacks a required column, whatever the rows are, and the message lists
    the missing columns in sorted order, separated by commas. *)
Theorem from_tsv_missing_columns (B : builtins) fn file name tol sn msg :
  from_tsv B fn file name tol sn = Raise (Exception msg) ↔
  ∃ cols, fieldnames file = Some cols ∧ missing_cols cols ≠ [] ∧
          msg = "Amplicon scheme TSV missing these columns: "
                +:+ String.concat "," (missing_cols cols)
                +:+ ". Got these columns: " +:+ py_repr B cols.
Proof.
  destruct (fieldnames file) as [cols|] eqn:Hcols.
  - destruct (decide (missing_cols cols = [])) as [Hm|Hm].
    + split; [|naive_solver]. intros Hraise. exfalso.
      pose proof (from_tsv_complete B fn file cols name tol sn Hcols Hm) as Hc.
      destruct (mapM (row_entry B) (rows file)) as [es|x] eqn:Hes.
      * destruct Hc as (amps & n & _ & Heq). rewrite Heq in Hraise.
        by apply init_raises in Hraise as [?|?].
      * apply mapM_raises in Hes as (d & _ & Hd).
        apply row_entry_raises in Hd. rewrite Hc in Hraise.
        injection Hraise as ->. by destruct Hd.
    + unfold from_tsv. rewrite Hcols. cbn [bind].
      rewrite bool_decide_eq_true_2
        by (destruct (missing_cols cols); [done|simpl; lia]).
      split; [intros [= <-]; by exists cols|].
      by intros (cols' & [= <-] & _ & ->).
  - unfold from_tsv. rewrite Hcols. split; [done|]. by intros (? & ? & _).
Qed.

(** What a set read with an explicit, non-empty shortname looks like. *)
Lemma from_tsv_with_shortname (B : builtins) fn file (k : string) S :
  from_tsv B fn file None None (Some k) = Ok S → k ≠ "" →
  AmpliconSet.name S = fn ∧ AmpliconSet.shortname S = None.
Proof.
  intros (cols & es & amps & n & _ & _ & _ & _ & Hinit)%from_tsv_Ok Hk.
  pose proof (init_fields _ _ _ _ _ Hinit) as [-> _].
  apply init_Ok in Hinit as (_ & -> & _). split; [done|].
  simpl. by rewrite bool_decide_eq_false_2.
Qed.

Lemma mapM_Forall2 {A B} (f : A → result B) (l : list A) (ys : list B) :
  mapM f l = Ok ys → Forall2 (λ x y, f x = Ok y) l ys.
Proof.
  revert ys. induction l as [|x l IH]; intros ys; simpl.
  - intros [= <-]. constructor.
  - intros (y & Hy & (ys' & Hys & [= <-])%bind_Ok)%bind_Ok.
    constructor; [done|by apply IH].
Qed.

Lemma pydict_of_pairs_NoDup {K V} `{EqDecision K} (l : list (K * V)) :
  NoDup l.*1 → pydict_of_pairs l = l.
Proof.
  unfold pydict_of_pairs.
  assert (∀ d : list (K * V), NoDup (d ++ l).*1 →
            foldl (λ d kv, pydict_set kv.1 kv.2 d) d l = d ++ l) as Hgen.
  { induction l as [|[k v] l IH]; intros d Hnd; simpl.
    - by rewrite app_nil_r.
    - rewrite pydict_set_fresh.
      + rewrite IH; rewrite <-app_assoc; done.
      + rewrite fmap_app in Hnd. apply NoDup_app in Hnd as (_ & Hdisj & _).
        intros Hk. apply (Hdisj k Hk). left. }
  intros Hnd. by apply (Hgen []).
Qed.

Lemma zip_snd_take {A B} (l : list A) (k : list B) :
  (zip l k).*2 = take (List.length l) k.
Proof.
  revert k. induction l as [|x l IH]; intros [|y k]; simpl; try done.
  by rewrite IH.
Qed.

Lemma load_Ok (B : builtins) (files : list (string * tsv_file)) d :
  load_amplicon_schemes B files = Ok d →
  d.*1 = take (List.length files) ["a"; "b"; "c"] ∧
  ∀ (i : nat) k S, d !! i = Some (k, S) →
    ∃ fn file, files !! i = Some (fn, file) ∧
               from_tsv B fn file None None (Some k) = Ok S ∧
               AmpliconSet.name S = fn ∧ AmpliconSet.shortname S = None.
Proof.
  unfold load_amplicon_schemes.
  intros (pairs & Hpairs%mapM_Forall2 & [= <-])%bind_Ok.
  assert (pairs.*1 = take (List.length files) ["a"; "b"; "c"]) as Hkeys.
  { rewrite <-zip_snd_take.
    induction Hpairs as [|ts kv l l' Hkv _ IH]; [done|].
    rewrite !fmap_cons, IH. f_equal.
    by apply bind_Ok in Hkv as (S & _ & [= <-]). }
  rewrite pydict_of_pairs_NoDup.
  2:{ rewrite Hkeys. eapply sublist_NoDup; [|apply sublist_take].
      repeat (apply NoDup_cons; split; [set_solver|]). apply NoDup_nil_2. }
  split; [done|]. intros i k S Hi.
  destruct (Forall2_lookup_r _ _ _ _ _ Hpairs Hi) as ([[fn file] k'] & Hzip & Hkv).
  apply bind_Ok in Hkv as (S' & HS & [= <- <-]). simpl in HS.
  apply lookup_zip_with_Some in Hzip as (x & y & [= <- <-] & Hx & Hy).
  exists fn, file. split; [done|]. split; [done|].
  eapply from_tsv_with_shortname; [done|].
  apply list_elem_of_lookup_2 in Hy. set_solver.
Qed.

(** X20: A successful [load_amplicon_schemes] yields one set per file for the
    first three files, keyed "a", "b", "c" in that order; each set is the
    one [from_tsv] reads from the file with the key as shortname, is named
    after its file, and has no shortname attribute. *)
Theorem load_amplicon_schemes_result (B : builtins)
    (files : list (string * tsv_file)) d :
  load_amplicon_schemes B files = Ok d →
  List.length d = (List.length files `min` 3)%nat ∧
  d.*1 = take (List.length files) ["a"; "b"; "c"] ∧
  ∀ (i : nat) k S, d !! i = Some (k, S) →
    ∃ fn file, files !! i = Some (fn, file) ∧
               from_tsv B fn file None None (Some k) = Ok S ∧
               AmpliconSet.name S = fn ∧ AmpliconSet.shortname S = None.
Proof.
  intros [Hkeys Hsets]%load_Ok. split; [|done].
  apply (f_equal List.length) in Hkeys.
  rewrite length_fmap, length_take in Hkeys. simpl in Hkeys. lia.
Qed.

Lemma load_amplicon_schemes_result_witness :
  List.length ex_loaded = (List.length ex_files `min` 3)%nat ∧
  ex_loaded.*1 = take (List.length ex_files) ["a"; "b"; "c"] ∧
  ∀ (i : nat) k S, ex_loaded !! i = Some (k, S) →
    ∃ fn file, ex_files !! i = Some (fn, file) ∧
               from_tsv ex_builtins fn file None None (Some k) = Ok S ∧
               AmpliconSet.name S = fn ∧ AmpliconSet.shortname S = None.
Proof.
  apply (load_amplicon_schemes_result ex_builtins ex_files).
  vm_compute. reflexivity.
Defined.

(** X21: Files after the third are never read: the outcome, error or not, is
    that of the first three files. *)
Theorem load_amplicon_schemes_first_three (B : builtins)
    (files : list (string * tsv_file)) :
  load_amplicon_schemes B files = load_amplicon_schemes B (take 3 files).
Proof.
  unfold load_amplicon_schemes.
  by destruct files as [|? [|? [|? [|? ?]]]].
Qed.

(** X22: [set_tags] over the sets that [load_amplicon_schemes] returns raises
    [AttributeError], whatever the read and the matches: the sets were built
    with an explicit shortname and so have none. *)
Theorem set_tags_after_load {R : Type} `{ReadAPI R} (B : builtins)
    (files : list (string * tsv_file)) d (read : R)
    (matches : gmap string (list Amplicon.t)) :
  load_amplicon_schemes B files = Ok d → d ≠ [] →
  set_tags (pydict_values d) read matches = Raise AttributeError.
Proof.
  intros [_ Hsets]%load_Ok Hne.
  rewrite set_tags_eval, decide_False; [done|].
  destruct d as [|[k S] d]; [done|].
  destruct (Hsets 0%nat k S eq_refl) as (fn & file & _ & _ & _ & Hnone).
  unfold pydict_values. simpl. intros [[? Hs] _]%Forall_cons. congruence.
Qed.

Lemma set_tags_after_load_witness :
  set_tags (pydict_values ex_loaded) (PairRead [])
           {[ "first.tsv" := [ex_A] ]} = Raise AttributeError.
Proof.
  apply (set_tags_after_load ex_builtins ex_files).
  - vm_compute. reflexivity.
  - vm_compute. discriminate.
Defined.






